(** * nuclei: v2/pkg/protocols/http/utils.go

    A shallow embedding of the helpers of [utils.go]
    ([dumpResponseWithRedirectChain], [headersToString], [dump],
    [handleDecompression], [rawHasBody]) and the properties stated about
    them.

    Conventions.
    - A Go [string] and a Go [[]byte] are both finite sequences of 8-bit
      bytes; both are [string] here (a list of [ascii]), and the casts
      between them ([tostring.UnsafeToString], [Buffer.String],
      [Buffer.Bytes]) are the identity.  A nil slice is the empty string.
    - A Go result pair [([]byte, error)] is [bytes * option error], the
      nil error being [None].
    - Functions of other packages (net/http, net/http/httputil,
      compress/gzip, rawhttp, retryablehttp, generators) are variables of
      the section that uses them. *)

From Stdlib Require Import ZArith String Ascii List Lia.
From stdpp Require Import base option list relations gmap fin_maps strings.

Local Open Scope string_scope.
Local Open Scope Z_scope.

(** ** Byte strings *)

Abbreviation bytes := string.

Definition nl : ascii := Ascii.ascii_of_nat 10.
Definition LF : string := String nl "".
Definition len (s : string) : Z := Z.of_nat (String.length s).

(** Strings put one after the other, nothing in between. *)
Definition glue (l : list string) : string := String.concat "" l.

(** [bytes.Buffer] and [strings.Builder]: only the append-only part. *)
Module Buffer.
Definition t := string.
Definition empty : t := "".
Definition WriteString (b : t) (s : string) : t := (b ++ s)%string.
Definition Write (b : t) (p : bytes) : t := (b ++ p)%string.
Definition WriteRune (b : t) (r : ascii) : t := (b ++ String r "")%string.
Definition String (b : t) : string := b.
Definition Bytes (b : t) : bytes := b.
Definition Reset (b : t) : t := empty.
End Buffer.

(** ** package strings *)
Module strings.

Definition is_ascii (c : ascii) : bool := (Z.of_nat (nat_of_ascii c) <? 128).

Fixpoint all_ascii (s : string) : bool :=
  match s with
  | EmptyString => true
  | String c s' => is_ascii c && all_ascii s'
  end.

Definition lower_byte (c : ascii) : ascii :=
  let n := Z.of_nat (nat_of_ascii c) in
  if (65 <=? n) && (n <=? 90) then ascii_of_nat (Z.to_nat (n + 32)) else c.

Fixpoint map_bytes (f : ascii -> ascii) (s : string) : string :=
  match s with
  | EmptyString => EmptyString
  | String c s' => String (f c) (map_bytes f s')
  end.

(** [asciiSpace] of strings.go: tab, newline, vertical tab, form feed,
    carriage return, space. *)
Definition ascii_space (c : ascii) : bool :=
  let n := Z.of_nat (nat_of_ascii c) in
  ((9 <=? n) && (n <=? 13)) || (n =? 32).

Fixpoint trim_left (s : string) : string :=
  match s with
  | EmptyString => EmptyString
  | String c s' => if ascii_space c then trim_left s' else s
  end.

(** Drops the trailing white space: [trim_right s] keeps [s] up to its
    last byte that is not white space. *)
Fixpoint trim_right (s : string) : string :=
  match s with
  | EmptyString => EmptyString
  | String c s' =>
      match trim_right s' with
      | EmptyString => if ascii_space c then EmptyString else String c EmptyString
      | t => String c t
      end
  end.

Section Unicode.
(** What [strings.ToLower] and [strings.TrimSpace] do on a string that
    holds a byte above 0x7f (the Unicode tables are not part of this
    development). *)
Variable unicode_ToLower : string -> string.
Variable unicode_TrimSpace : string -> string.

Definition ToLower (s : string) : string :=
  if all_ascii s then map_bytes lower_byte s else unicode_ToLower s.

Definition TrimSpace (s : string) : string :=
  if all_ascii s then trim_right (trim_left s) else unicode_TrimSpace s.
End Unicode.

(** [strings.Contains s substr]: [substr] occurs in [s]. *)
Fixpoint Contains (s substr : string) : bool :=
  String.prefix substr s
  || match s with
     | EmptyString => false
     | String _ s' => Contains s' substr
     end.

End strings.

(** ** package io *)
Module io.

(** Go [error] values; [io.EOF] is the one the code compares with. *)
Inductive error : Type :=
| EOF
| ErrUnexpectedEOF
| errorString (msg : string).

(** An [io.Reader] seen from its consumer: the bytes it still delivers
    and how it ends after them, with [io.EOF] ([None]) or with another
    error.  The error is reported by the [Read] that follows the last
    delivered byte. *)
Record Reader : Type := mkReader { pending : bytes; failure : option error }.

(** [bytes.NewReader] and [strings.NewReader] (under [ioutil.NopCloser]). *)
Definition NewReader (b : bytes) : Reader := mkReader b None.

(** [ioutil.ReadAll]: reads until an error or EOF and returns the data
    read until then; EOF is not reported as an error. *)
Definition ReadAll (r : Reader) : bytes * option error :=
  (pending r, failure r).

(** The reader left behind by [ReadAll]. *)
Definition drained (r : Reader) : Reader := mkReader "" (failure r).

Fixpoint take (n : nat) (s : string) : string :=
  match n, s with
  | S n', String c s' => String c (take n' s')
  | _, _ => EmptyString
  end.

(** [io.LimitReader r n]: stops with EOF once [n] bytes were read. *)
Definition LimitReader (r : Reader) (n : Z) : Reader :=
  mkReader (take (Z.to_nat n) (pending r))
           (if len (pending r) <? n then failure r else None).

End io.

(** ** package net/http *)
Module http.

(** [http.Header], a Go [map[string][]string]. *)
Abbreviation Header := (gmap string (list string)).

(** [Header.Get key]: the first value stored under [key], or the empty
    string.  Go first puts [key] in canonical MIME form; the only key
    looked up in this file, "Content-Encoding", is in that form. *)
Definition Get (h : Header) (key : string) : string :=
  match h !! key with
  | Some (v :: _) => v
  | _ => ""
  end.

(** A [*http.Response] is an address in a heap of responses; nil is
    [None]. *)
Definition addr := positive.

(** [http.Request]; [Response] is the response that caused this
    request to be created by a redirect.  The functions below never
    write to the request of a response, so the request pointed to by
    [Response.Request] is held by value.  Fields carry the name of
    their struct as a prefix: [req_Response] is [Request.Response],
    [resp_Request] is [Response.Request]. *)
Record Request : Type := mkRequest {
  req_Method : string;
  req_URL : string;
  req_Header : Header;
  req_ContentLength : Z;
  req_Body : option io.Reader;
  req_Response : option addr
}.

(** The assignment [req.Body = b]. *)
Definition set_Body (req : Request) (b : option io.Reader) : Request :=
  mkRequest (req_Method req) (req_URL req) (req_Header req)
            (req_ContentLength req) b (req_Response req).

Record Response : Type := mkResponse {
  resp_Status : string;
  resp_Proto : string;
  resp_Header : Header;
  resp_ContentLength : Z;
  resp_Body : option io.Reader;
  resp_Request : option Request
}.

Abbreviation heap := (gmap addr Response).

(** The body of a request parsed by [http.ReadRequest]: the sentinel
    [http.NoBody], or a stream. *)
Inductive RequestBody : Type :=
| NoBody
| BodyStream (r : io.Reader).

End http.

(** ** Outcome of a run

    A Go call returns, panics, or keeps running; the last is what a
    model that counts loop iterations reports when its count is used
    up. *)
Inductive exec (A : Type) : Type :=
| Returned (a : A)
| Panicked
| OutOfFuel.
Arguments Returned {A} a.
Arguments Panicked {A}.
Arguments OutOfFuel {A}.

#[global] Instance exec_ret : MRet exec := fun A a => Returned a.

#[global] Instance exec_bind : MBind exec := fun A B k m =>
  match m with
  | Returned a => k a
  | Panicked => Panicked
  | OutOfFuel => OutOfFuel
  end.

(** ** headersToString *)
Module Headers.

(** The loop [for i, value := range values]. *)
Fixpoint write_values (header : string) (values_len : Z) (i : Z)
         (values : list string) (builder : Buffer.t) : Buffer.t :=
  match values with
  | [] => builder
  | value :: rest =>
      let builder := Buffer.WriteString builder value in
      let builder :=
        if negb (i =? values_len - 1)
        then Buffer.WriteString
               (Buffer.WriteString (Buffer.WriteRune builder nl) header) ": "
        else builder in
      write_values header values_len (i + 1) rest builder
  end.

(** One turn of the loop [for header, values := range headers]. *)
Definition write_header (builder : Buffer.t)
           (entry : string * list string) : Buffer.t :=
  let '(header, values) := entry in
  let builder := Buffer.WriteString builder header in
  let builder := Buffer.WriteString builder ": " in
  let builder :=
    write_values header (Z.of_nat (length values)) 0 values builder in
  Buffer.WriteRune builder nl.

(** The function once the [range] over the map has fixed the order in
    which it yields the entries. *)
Definition headersToString_in (order : list (string * list string)) : string :=
  Buffer.String (fold_left write_header order Buffer.empty).

(** A Go [range] over a map yields every entry once, in an order that
    the language leaves unspecified and that the runtime varies from
    one loop to the next. *)
Definition range_order (headers : http.Header)
           (order : list (string * list string)) : Prop :=
  order ≡ₚ map_to_list headers.

(** [headersToString headers out]: [out] is a string that the call
    [headersToString(headers)] can return. *)
Definition headersToString (headers : http.Header) (out : string) : Prop :=
  ∃ order, range_order headers order ∧ out = headersToString_in order.

(** The lines of one header, as the specification words them: one
    [Name: value] line per value. *)
Definition header_line (name value : string) : string :=
  (name ++ ": " ++ value ++ String nl "")%string.

Definition header_lines (name : string) (values : list string) : string :=
  glue (map (header_line name) values).

(** The block written for one map entry; a name without values still
    gets its [Name: ] prefix and the newline. *)
Definition header_block (entry : string * list string) : string :=
  match entry.2 with
  | [] => (entry.1 ++ ": " ++ String nl "")%string
  | _ => header_lines entry.1 entry.2
  end.

(** A multimap filled by adding the entries of [ins] one after the
    other, as [Header.Set] or [h[name] = values] does. *)
Definition inserted (ins : list (string * list string)) : http.Header :=
  fold_left (λ (h : http.Header) e, <[e.1 := e.2]> h) ins ∅.

(** The output follows the order in which the names were added. *)
Definition keeps_insertion_order (ins : list (string * list string)) : Prop :=
  ∀ out, headersToString (inserted ins) out → out = headersToString_in ins.

(** The same multimap always gives the same string. *)
Definition single_valued (headers : http.Header) : Prop :=
  ∀ out1 out2,
    headersToString headers out1 → headersToString headers out2 → out1 = out2.

End Headers.

(** ** dumpResponseWithRedirectChain *)
Module RedirectChain.

(** Reading through a pointer: nil faults, and so does, in the model
    only, an address that the heap does not hold. *)
Definition deref {A : Type} (p : option A) : exec A :=
  match p with
  | Some x => Returned x
  | None => Panicked
  end.

(** [tostring.UnsafeToString]: reinterprets the bytes as a string. *)
Definition UnsafeToString (b : bytes) : string := b.

Section dumper.
(** [httputil.DumpResponse]: status line and headers of a response,
    and with [true] its body as well.  Called with [false] it leaves
    the response as it found it. *)
Variable DumpResponse : http.Response → bool → bytes * option io.error.

(** The loop [for redirectResp != nil], one unit of [fuel] per turn.
    The state is the slice [redirects] and the buffer
    [redirectChain].  [ioutil.ReadAll] leaves the body of the visited
    response drained; the loop does not look at a response again
    before it ends, so the heap is read and not rewritten here. *)
Fixpoint walk (fuel : nat) (h : http.heap) (redirectResp : option http.addr)
         (redirects : list string) (redirectChain : Buffer.t)
  : exec (list string * Buffer.t) :=
  match redirectResp with
  | None => Returned (redirects, redirectChain)
  | Some a =>
      match fuel with
      | O => OutOfFuel
      | S fuel' =>
          r ← deref (h !! a);
          let '(respData, err) := DumpResponse r false in
          match err with
          | Some _ => Returned (redirects, redirectChain)
          | None =>
              let body :=
                match http.resp_Body r with
                | Some b => (io.ReadAll b).1
                | None => ""
                end in
              let redirectChain :=
                Buffer.WriteString redirectChain (UnsafeToString respData) in
              let redirectChain :=
                if 0 <? len body
                then Buffer.WriteString redirectChain (UnsafeToString body)
                else redirectChain in
              let redirects := (redirects ++ [Buffer.String redirectChain])%list in
              rq ← deref (http.resp_Request r);
              let redirectResp := http.req_Response rq in
              let redirectChain := Buffer.Reset redirectChain in
              walk fuel' h redirectResp redirects redirectChain
          end
      end
  end.

(** The loop [for i := len(redirects) - 1; i >= 0; i--], entered with
    [n = i + 1]. *)
Fixpoint emit (redirects : list string) (n : nat) (redirectChain : Buffer.t)
  : Buffer.t :=
  match n with
  | O => redirectChain
  | S i => emit redirects i (Buffer.WriteString redirectChain (nth i redirects ""))
  end.

Definition dumpResponseWithRedirectChain (fuel : nat) (h : http.heap)
           (resp : option http.addr) (body : bytes)
  : exec (bytes * option io.error) :=
  let redirects : list string := [] in
  (* httputil.DumpResponse reads resp.Body at once: a nil resp faults *)
  a ← deref resp;
  r ← deref (h !! a);
  let '(respData, err) := DumpResponse r false in
  match err with
  | Some e => Returned ("", Some e)
  | None =>
      let redirectChain := Buffer.empty in
      let redirectChain :=
        Buffer.WriteString redirectChain (UnsafeToString respData) in
      let redirectChain := Buffer.Write redirectChain body in
      let redirects := (redirects ++ [Buffer.String redirectChain])%list in
      let redirectChain := Buffer.Reset redirectChain in
      let redirectResp :=
        match http.resp_Request r with
        | Some rq => http.req_Response rq
        | None => None
        end in
      '(redirects, redirectChain) ← walk fuel h redirectResp redirects redirectChain;
      let redirectChain := emit redirects (length redirects) redirectChain in
      Returned (Buffer.Bytes redirectChain, None)
  end.

(** *** Vocabulary of the statements *)

(** [renders r]: [DumpResponse] gives the status line and headers of
    [r] without an error. *)
Definition renders (r : http.Response) : Prop := (DumpResponse r false).2 = None.

Definition head_of (r : http.Response) : bytes := (DumpResponse r false).1.

(** What reading the body of an earlier hop yields. *)
Definition body_read (r : http.Response) : bytes :=
  match http.resp_Body r with
  | Some b => (io.ReadAll b).1
  | None => ""
  end.

(** The record of an earlier hop: status line and headers, then the
    bytes read from its body. *)
Definition hop_record (r : http.Response) : string :=
  (head_of r ++ body_read r)%string.

(** The record of the final hop, whose body the caller has read. *)
Definition final_record (r : http.Response) (body : bytes) : string :=
  (head_of r ++ body)%string.

(** Where the backward walk stops without a fault: at nil, or at a
    response that does not render. *)
Definition stops (h : http.heap) (q : option http.addr) : Prop :=
  q = None ∨ ∃ b r, q = Some b ∧ h !! b = Some r ∧ ¬ renders r.

(** The record of an earlier hop if a body whose reading fails were left
    out of it. *)
Definition record_without_failed_body (r : http.Response) : string :=
  (head_of r ++ match http.resp_Body r with
                | Some b =>
                    match io.ReadAll b with
                    | (data, None) => data
                    | (_, Some _) => ""
                    end
                | None => ""
                end)%string.
End dumper.

(** [previous r] is [r.Request.Response], nil when [r.Request] is. *)
Definition previous (r : http.Response) : option http.addr :=
  rq ← http.resp_Request r; http.req_Response rq.

(** One backward link: the response at [a] was obtained by a request
    that the response at [b] caused. *)
Definition link (h : http.heap) (a b : http.addr) : Prop :=
  ∃ r, h !! a = Some r ∧ previous r = Some b.

(** [path h p l q]: going back from the pointer [p] one meets the
    responses [l], nearest first, each holding its request, and then
    stands at the pointer [q]. *)
Inductive path (h : http.heap) : option http.addr → list http.Response →
                                 option http.addr → Prop :=
| path_here p : path h p [] p
| path_back a r rq l q :
    h !! a = Some r →
    http.resp_Request r = Some rq →
    path h (http.req_Response rq) l q →
    path h (Some a) (r :: l) q.

(** A redirect chain that ends at the response [r]: [earlier] lists the
    responses of the hops before it in the order of the requests, the
    first request of the chain having no [Response]. *)
Definition chain (h : http.heap) (earlier : list http.Response)
           (r : http.Response) : Prop :=
  path h (previous r) (reverse earlier) None.

(** No response that can be reached from [a] lies on a cycle. *)
Definition acyclic_from (h : http.heap) (a : http.addr) : Prop :=
  ∀ b, rtc (link h) a b → ¬ tc (link h) b b.

(** Every response met going back from [a] is in the heap and holds
    the request that obtained it. *)
Definition well_linked (h : http.heap) (a : http.addr) : Prop :=
  is_Some (h !! a) ∧
  ∀ b, tc (link h) a b →
       ∃ r rq, h !! b = Some r ∧ http.resp_Request r = Some rq.

End RedirectChain.

(** ** dump *)
Module Dump.

(** [retryablehttp.Request] embeds the [*http.Request] that is sent and
    retains the payload from which the body can be produced again:
    [body] is what calling that closure gives, a reader over the
    payload or an error. *)
Record retryable_Request : Type := mkRetryable {
  Request : http.Request;
  body : option (io.Reader * option io.error)
}.

(** Modelled from the spec: the declaration of [raw.Request] is not in
    utils.go.  These are the fields that [dump] passes on: method, path,
    headers, body text, and the headers to be sent as they are. *)
Record raw_Request : Type := mkRaw {
  Method : string;
  Path : string;
  Headers : gmap string string;
  Data : string;
  UnsafeHeaders : bytes
}.

(** Modelled from the spec: the declaration of [generatedRequest] is
    not in utils.go.  A generated request holds a structured request or
    a raw one; [dump] tells them apart by [req.request != nil]. *)
Record generatedRequest : Type := mkGenerated {
  request : option retryable_Request;
  rawRequest : option raw_Request
}.

(** The assignment [req.request.Request.Body = b]. *)
Definition set_Request_Body (rr : retryable_Request) (b : option io.Reader)
  : retryable_Request :=
  mkRetryable (http.set_Body (Request rr) b) (body rr).

Section dump.
(** [BodyBytes] of [retryablehttp.Request]: the bytes of the body of
    the request.  Whatever it does to [Request.Body] is overwritten by
    the statement that follows the call, so only its result is kept. *)
Variable BodyBytes : retryable_Request → bytes * option io.error.

(** What the transport inside [httputil.DumpRequestOut] writes for a
    request, given whether the body is asked for and the content that
    was drained from it ([None]: the request has no body). *)
Variable wire_out : http.Request → bool → option bytes → bytes * option io.error.

Variable ExpandMapValues : gmap string string → gmap string (list string).

(** [rawhttp.DumpRequestRaw method url path headers body options]. *)
Variable DumpRequestRaw :
  string → string → string → gmap string (list string) → io.Reader → bytes →
  bytes * option io.error.

(** [httputil.DumpRequestOut req body]: with [body] it drains
    [req.Body] into a buffer, writes the request with that content,
    and leaves in [req.Body] a new reader over the buffer; a body that
    fails while it is drained is left drained and its error is
    returned. *)
Definition DumpRequestOut (req : http.Request) (body : bool)
  : (bytes * option io.error) * http.Request :=
  if body then
    match http.req_Body req with
    | None =>
        (wire_out (http.set_Body req None) true None,
         http.set_Body req (Some (io.NewReader "")))
    | Some b =>
        match io.ReadAll b with
        | (_, Some e) => (("", Some e), http.set_Body req (Some (io.drained b)))
        | (content, None) =>
            (wire_out (http.set_Body req None) true (Some content),
             http.set_Body req (Some (io.NewReader content)))
        end
    end
  else (wire_out (http.set_Body req None) false None, req).

(** [dump] returns its result and leaves the generated request, which
    it holds by pointer, in a new state. *)
Definition dump (req : generatedRequest) (reqURL : string)
  : exec ((bytes * option io.error) * generatedRequest) :=
  match request req with
  | Some rr =>
      let '(bodyBytes, _) := BodyBytes rr in
      let rr := set_Request_Body rr (Some (io.NewReader bodyBytes)) in
      let '(out, sent) := DumpRequestOut (Request rr) true in
      Returned (out, mkGenerated (Some (mkRetryable sent (body rr))) (rawRequest req))
  | None =>
      raw ← RedirectChain.deref (rawRequest req);
      Returned
        (DumpRequestRaw (Method raw) reqURL (Path raw)
           (ExpandMapValues (Headers raw)) (io.NewReader (Data raw))
           (UnsafeHeaders raw),
         req)
  end.

(** What [BodyBytes] promises: it gives the bytes of the body again
    after the body was replaced by a reader over the bytes it gave. *)
Definition replays : Prop :=
  ∀ rr, (BodyBytes (set_Request_Body rr (Some (io.NewReader (BodyBytes rr).1)))).1
        = (BodyBytes rr).1.
End dump.

(** Two implementations of [BodyBytes]. *)

(** From the retained payload, by the closure [body]. *)
Definition BodyBytes_retained (rr : retryable_Request) : bytes * option io.error :=
  match body rr with
  | None => ("", None)
  | Some (_, Some e) => ("", Some e)
  | Some (rd, None) =>
      match io.ReadAll rd with
      | (_, Some e) => ("", Some e)
      | (buf, None) => (buf, None)
      end
  end.

(** From [Request.Body], read to its end. *)
Definition BodyBytes_current (rr : retryable_Request) : bytes * option io.error :=
  match http.req_Body (Request rr) with
  | None => ("", None)
  | Some rd =>
      match io.ReadAll rd with
      | (_, Some e) => ("", Some e)
      | (buf, None) => (buf, None)
      end
  end.

End Dump.

(** ** handleDecompression *)
Module Decompress.

Section handleDecompression.
Variable unicode_ToLower unicode_TrimSpace : string → string.

(** [gzip.NewReader] over [bytes.NewReader data]: an error when the
    gzip header cannot be read, else the stream of decompressed
    bytes, which fails where the compressed data is corrupt. *)
Variable gzip_NewReader : bytes → io.Reader * option io.error.

(** The response is only read, so it is passed by value; nil is
    [None]. *)
Definition handleDecompression (resp : option http.Response) (bodyOrig : bytes)
  : bytes * option io.error :=
  match resp with
  | None => (bodyOrig, None)
  | Some resp =>
      let encodingHeader :=
        strings.TrimSpace unicode_TrimSpace
          (strings.ToLower unicode_ToLower
             (http.Get (http.resp_Header resp) "Content-Encoding")) in
      if strings.Contains encodingHeader "gzip" then
        let '(gzipreader, err) := gzip_NewReader bodyOrig in
        match err with
        | Some e => (bodyOrig, Some e)
        | None =>
            let '(bodyDec, err) := io.ReadAll gzipreader in
            match err with
            | Some e => (bodyOrig, Some e)
            | None => (bodyDec, None)
            end
        end
      else (bodyOrig, None)
  end.

(** The value of the Content-Encoding header as the function tests
    it. *)
Definition encoding_of (resp : http.Response) : string :=
  strings.TrimSpace unicode_TrimSpace
    (strings.ToLower unicode_ToLower
       (http.Get (http.resp_Header resp) "Content-Encoding")).

(** [compresses gz]: the decoder reads back whatever [gz] has
    compressed. *)
Definition compresses (gz : bytes → bytes) : Prop :=
  ∀ x, gzip_NewReader (gz x) = (io.NewReader x, None).
End handleDecompression.

End Decompress.

(** ** rawHasBody *)
Module Probe.

Section rawHasBody.
(** [http.ReadRequest] over a reader of [data]: an error, or a request
    of which only [Body] is looked at. *)
Variable ReadRequest : string → http.RequestBody * option io.error.

Definition is_EOF (e : io.error) : bool :=
  match e with io.EOF => true | _ => false end.

Definition rawHasBody (data : string) : bool :=
  let '(req_Body, err) := ReadRequest data in
  match err with
  | Some e => if is_EOF e then false else false
  | None =>
      match req_Body with
      | http.NoBody => false
      | http.BodyStream b =>
          let '(body, err) := io.ReadAll (io.LimitReader b 512) in
          match err with
          | Some _ => false
          | None => 0 <? len body
          end
      end
  end.
End rawHasBody.

End Probe.

(** ** Sample inputs *)
Module Sample.

Definition CRLF : string := String (ascii_of_nat 13) (String (ascii_of_nat 10) "").

(** A renderer of the status line alone; a response without a protocol
    version does not render. *)
Definition render (r : http.Response) (body : bool) : bytes * option io.error :=
  if String.eqb (http.resp_Proto r) ""
  then ("", Some (io.errorString "malformed HTTP version"))
  else ((http.resp_Proto r ++ " " ++ http.resp_Status r ++ CRLF ++ CRLF)%string, None).

Definition get (back : option http.addr) : http.Request :=
  http.mkRequest "GET" "http://example.com/" ∅ 0 None back.

Definition response (status : string) (body : option io.Reader)
           (req : option http.Request) : http.Response :=
  http.mkResponse status "HTTP/1.1" ∅ 0 body req.

(** Three hops: 301 at address 1, then 302 at address 2, whose body
    breaks off after two bytes, then 200 at address 3. *)
Definition moved : http.Response :=
  response "301 Moved Permanently" (Some (io.NewReader "one")) (Some (get None)).
Definition found : http.Response :=
  response "302 Found" (Some (io.mkReader "tw" (Some io.ErrUnexpectedEOF)))
           (Some (get (Some 1%positive))).
Definition ok : http.Response :=
  response "200 OK" None (Some (get (Some 2%positive))).
Definition three_hops : http.heap :=
  <[3%positive := ok]> (<[2%positive := found]> (<[1%positive := moved]> ∅)).

(** The same, but the response at address 2 does not render. *)
Definition garbled : http.Response :=
  http.mkResponse "302 Found" "" ∅ 0 None (Some (get (Some 1%positive))).
Definition garbled_hop : http.heap :=
  <[3%positive := ok]> (<[2%positive := garbled]> (<[1%positive := moved]> ∅)).

(** Two hops, the earlier response holding no request. *)
Definition orphan : http.Response := response "302 Found" None None.
Definition landed : http.Response :=
  response "200 OK" None (Some (get (Some 1%positive))).
Definition orphan_hop : http.heap :=
  <[2%positive := landed]> (<[1%positive := orphan]> ∅).

(** A response whose request points back to it. *)
Definition again : http.Response :=
  response "302 Found" None (Some (get (Some 1%positive))).
Definition looped : http.heap :=
  <[2%positive := landed]> (<[1%positive := again]> ∅).

(** A stand-in for the gzip format: two magic bytes, one byte that says
    whether the member is whole ("1") or was cut short, and the payload,
    stored as it is. *)
Definition magic : string := String (ascii_of_nat 31) (String (ascii_of_nat 139) "").

Definition gz (x : bytes) : bytes := (magic ++ "1" ++ x)%string.

Definition gunzip (data : bytes) : io.Reader * option io.error :=
  if String.prefix magic data then
    match String.substring 2 (String.length data - 2) data with
    | EmptyString => (io.NewReader "", Some io.ErrUnexpectedEOF)
    | String flag payload =>
        if Ascii.eqb flag "1"%char
        then (io.NewReader payload, None)
        else (io.mkReader payload (Some io.ErrUnexpectedEOF), None)
    end
  else (io.NewReader "", Some (io.errorString "gzip: invalid header")).

Definition same (s : string) : string := s.

Definition encoded (encoding : string) : http.Response :=
  http.mkResponse "200 OK" "HTTP/1.1" {["Content-Encoding" := [encoding]]} 0 None None.

Definition plain : http.Response :=
  http.mkResponse "200 OK" "HTTP/1.1" ∅ 0 None None.

(** A stand-in for [http.ReadRequest] that only looks for the empty line
    that ends the head of the request: what follows it is the body. *)
Fixpoint after_head (data : string) : option string :=
  if String.prefix (CRLF ++ CRLF) data
  then Some (String.substring 4 (String.length data - 4) data)
  else match data with
       | EmptyString => None
       | String _ rest => after_head rest
       end.

Definition read_head (data : string) : http.RequestBody * option io.error :=
  match data with
  | EmptyString => (http.NoBody, Some io.EOF)
  | _ =>
      match after_head data with
      | None => (http.NoBody, Some io.ErrUnexpectedEOF)
      | Some EmptyString => (http.NoBody, None)
      | Some rest => (http.BodyStream (io.NewReader rest), None)
      end
  end.

(** A stand-in for what the transport writes: request line, empty line,
    body. *)
Definition wire (req : http.Request) (body : bool) (content : option bytes)
  : bytes * option io.error :=
  ((http.req_Method req ++ " " ++ http.req_URL req ++ " HTTP/1.1" ++ CRLF ++ CRLF
    ++ default "" content)%string, None).

Definition expand (headers : gmap string string) : gmap string (list string) :=
  (λ v, [v]) <$> headers.

Definition wire_raw (method url path : string) (headers : gmap string (list string))
           (body : io.Reader) (unsafe : bytes) : bytes * option io.error :=
  ((method ++ " " ++ path ++ " HTTP/1.1" ++ CRLF ++ CRLF ++ io.pending body)%string, None).

(** A structured POST whose body the transport has already read. *)
Definition posted : Dump.generatedRequest :=
  Dump.mkGenerated
    (Some (Dump.mkRetryable
             (http.mkRequest "POST" "http://example.com/" ∅ 3
                             (Some (io.NewReader "")) None)
             (Some (io.NewReader "abc", None))))
    None.

End Sample.

(** ** Further vocabulary *)
Module Further.

Section endless.
Variable DumpResponse : http.Response → bool → bytes * option io.error.

(** Going back from [a] never ends: every response that is met renders,
    holds its request, and that request has a [Response]. *)
Definition endless (h : http.heap) (a : http.addr) : Prop :=
  ∀ b, rtc (RedirectChain.link h) a b →
       ∃ r rq c,
         h !! b = Some r
         ∧ RedirectChain.renders DumpResponse r
         ∧ http.resp_Request r = Some rq
         ∧ http.req_Response rq = Some c.
End endless.

(** Two heaps hold the same responses wherever one gets going back
    from [a] in the first. *)
Definition agree_behind (h1 h2 : http.heap) (a : http.addr) : Prop :=
  ∀ b, rtc (RedirectChain.link h1) a b → h1 !! b = h2 !! b.

(** The number of bytes that [headersToString] writes for one entry:
    per value the name, ": ", the value and a newline; for a name
    without values the name, ": " and a newline. *)
Definition block_size (entry : string * list string) : nat :=
  match entry.2 with
  | [] => (String.length entry.1 + 3)%nat
  | values =>
      sum_list_with (λ v, String.length entry.1 + String.length v + 3)%nat values
  end.

(** [three_hops] and a response at address 9 that no chain reaches. *)
Definition crowded : http.heap := <[9%positive := Sample.orphan]> Sample.three_hops.

(** A body of 600 bytes that fails after them, and one of two bytes that
    fails after them. *)
Fixpoint repeat_byte (c : ascii) (n : nat) : string :=
  match n with
  | O => EmptyString
  | S n' => String c (repeat_byte c n')
  end.

Definition long_then_broken : io.Reader :=
  io.mkReader (repeat_byte "x"%char 600) (Some io.ErrUnexpectedEOF).

Definition short_then_broken : io.Reader :=
  io.mkReader "ab" (Some io.ErrUnexpectedEOF).

(** A stand-in for [http.ReadRequest] that hands out a given body for
    every input. *)
Definition read_as (b : io.Reader) (data : string) : http.RequestBody * option io.error :=
  (http.BodyStream b, None).

(** A [BodyBytes] that fails and returns no bytes. *)
Definition BodyBytes_failing (rr : Dump.retryable_Request) : bytes * option io.error :=
  ("", Some (io.errorString "body unavailable")).

End Further.

(** * Properties *)

(** ** Byte strings *)

Lemma append_cons (c : ascii) (s1 s2 : string) :
  (String c s1 ++ s2)%string = String c (s1 ++ s2)%string.
Proof. reflexivity. Qed.

Lemma append_nil_l (s : string) : ("" ++ s)%string = s.
Proof. reflexivity. Qed.

Lemma append_nil_r (s : string) : (s ++ "")%string = s.
Proof.
  induction s as [|c s IH]; [done |]. by rewrite append_cons, IH.
Qed.

Lemma append_assoc (s1 s2 s3 : string) :
  ((s1 ++ s2) ++ s3)%string = (s1 ++ (s2 ++ s3))%string.
Proof.
  induction s1 as [|c s1 IH]; [done |]. by rewrite !append_cons, IH.
Qed.

Lemma length_append (s1 s2 : string) :
  String.length (s1 ++ s2) = (String.length s1 + String.length s2)%nat.
Proof.
  induction s1 as [|c s1 IH]; [done |]. rewrite append_cons. simpl. by rewrite IH.
Qed.

Lemma len_pos_nonempty (s : string) : (0 <? len s) = true ↔ s ≠ "".
Proof.
  unfold len. destruct s as [|c s]; simpl.
  - split; [discriminate | done].
  - split; [discriminate | intros _; apply Z.ltb_lt; lia].
Qed.

Lemma glue_cons (s : string) (l : list string) : glue (s :: l) = (s ++ glue l)%string.
Proof.
  unfold glue. destruct l as [|s' l]; [| done].
  cbn [String.concat]. by rewrite append_nil_r.
Qed.

Lemma glue_app (l1 l2 : list string) :
  glue (l1 ++ l2)%list = (glue l1 ++ glue l2)%string.
Proof.
  induction l1 as [|s l1 IH]; [done |].
  change ((s :: l1) ++ l2)%list with (s :: (l1 ++ l2)%list).
  by rewrite !glue_cons, IH, append_assoc.
Qed.

Lemma glue_singleton (s : string) : glue [s] = s.
Proof. done. Qed.

Lemma map_reverse {A B : Type} (f : A → B) (l : list A) :
  map f (reverse l) = reverse (map f l).
Proof.
  induction l as [|x l IH]; [done |].
  cbn [map]. by rewrite !reverse_cons, map_app, IH.
Qed.

(** ** headersToString *)
Section headers_facts.
Import Headers.

(** The inner loop writes the values with [LF name ": "] between
    them. *)
Lemma write_values_concat (header : string) (values : list string) :
  ∀ (i : Z) (builder : Buffer.t),
    write_values header (i + Z.of_nat (length values)) i values builder
    = (builder ++ String.concat (LF ++ header ++ ": ") values)%string.
Proof.
  induction values as [|v rest IH]; intros i builder.
  - simpl. by rewrite append_nil_r.
  - cbn [write_values].
    replace (i + Z.of_nat (length (v :: rest)))
      with ((i + 1) + Z.of_nat (length rest)) by (simpl length; lia).
    destruct rest as [|v' rest'].
    + replace (i =? i + 1 + Z.of_nat (length (@nil string)) - 1) with true
        by (symmetry; apply Z.eqb_eq; simpl; lia).
      done.
    + replace (i =? i + 1 + Z.of_nat (length (v' :: rest')) - 1) with false
        by (symmetry; apply Z.eqb_neq; simpl length; lia).
      cbn [negb]. rewrite IH.
      unfold Buffer.WriteString, Buffer.WriteRune.
      change (String.concat (LF ++ header ++ ": ") (v :: v' :: rest'))
        with (v ++ (LF ++ header ++ ": ")
                ++ String.concat (LF ++ header ++ ": ") (v' :: rest'))%string.
      by rewrite !append_assoc.
Qed.

Lemma lines_of_concat (name v : string) (values : list string) :
  (name ++ ": " ++ String.concat (LF ++ name ++ ": ") (v :: values) ++ LF)%string
  = header_lines name (v :: values).
Proof.
  revert v. induction values as [|v' rest IH]; intros v.
  - done.
  - change (String.concat (LF ++ name ++ ": ") (v :: v' :: rest))
      with (v ++ (LF ++ name ++ ": ")
              ++ String.concat (LF ++ name ++ ": ") (v' :: rest))%string.
    unfold header_lines in *. cbn [map] in *.
    rewrite (glue_cons (header_line name v)), <- IH.
    unfold header_line. fold LF. by rewrite !append_assoc.
Qed.

(** One turn of the outer loop appends the block of its entry. *)
Lemma write_header_block (builder : Buffer.t) (entry : string * list string) :
  write_header builder entry = (builder ++ header_block entry)%string.
Proof.
  destruct entry as [name values]. unfold write_header.
  rewrite (write_values_concat name values 0).
  unfold Buffer.WriteString, Buffer.WriteRune, header_block. cbn [fst snd].
  destruct values as [|v values].
  - simpl. by rewrite !append_assoc.
  - rewrite <- lines_of_concat. fold LF. by rewrite !append_assoc.
Qed.

Lemma fold_write_header (order : list (string * list string)) (builder : Buffer.t) :
  fold_left write_header order builder
  = (builder ++ glue (map header_block order))%string.
Proof.
  revert builder. induction order as [|e order IH]; intros builder.
  - simpl. by rewrite append_nil_r.
  - cbn [fold_left map]. rewrite IH, write_header_block, glue_cons.
    by rewrite append_assoc.
Qed.

Lemma headersToString_in_blocks (order : list (string * list string)) :
  headersToString_in order = glue (map header_block order).
Proof. unfold headersToString_in, Buffer.String. by rewrite fold_write_header. Qed.

Lemma headersToString_in_app (l1 l2 : list (string * list string)) :
  headersToString_in (l1 ++ l2)%list
  = (headersToString_in l1 ++ headersToString_in l2)%string.
Proof. by rewrite !headersToString_in_blocks, map_app, glue_app. Qed.

Lemma headersToString_singleton (name : string) (values : list string) (out : string) :
  headersToString {[name := values]} out ↔ out = header_block (name, values).
Proof.
  unfold headersToString, range_order. rewrite map_to_list_singleton. split.
  - intros (order & Hperm & ->). apply Permutation_singleton_r in Hperm as ->.
    rewrite headersToString_in_blocks. done.
  - intros ->. exists [(name, values)]. split; [done |].
    rewrite headersToString_in_blocks. done.
Qed.

End headers_facts.

Section headers_claims.
Import Headers.

(** C5: for a header name that has more than one value, the output of
    [headersToString] holds, between what it holds for the entries
    yielded before and after, one [Name: value] line per value of the
    name, each ended by a newline, in the stored order of the values;
    and the multimap that maps "X-Foo" to ["a"; "b"] is serialized to
    the two lines [X-Foo: a] and [X-Foo: b]. *)
Theorem headersToString_repeats_name :
  (∀ (headers : http.Header) (out name : string) (values : list string),
      headersToString headers out →
      headers !! name = Some values →
      (1 < length values)%nat →
      ∃ l1 l2,
        (l1 ++ (name, values) :: l2)%list ≡ₚ map_to_list headers ∧
        out = (headersToString_in l1
               ++ glue (map (λ v, name ++ ": " ++ v ++ LF) values)
               ++ headersToString_in l2)%string)
  ∧ (∀ out, headersToString {["X-Foo" := ["a"; "b"]]} out
            ↔ out = ("X-Foo: a" ++ LF ++ "X-Foo: b" ++ LF)%string).
Proof.
  split.
  - intros headers out name values (order & Hperm & ->) Hlook Hlen.
    assert (Hin : (name, values) ∈ order).
    { rewrite Hperm. by apply elem_of_map_to_list. }
    apply list_elem_of_split in Hin as (l1 & l2 & ->).
    exists l1, l2. split; [done |].
    rewrite headersToString_in_app.
    change ((name, values) :: l2) with ([(name, values)] ++ l2)%list.
    rewrite headersToString_in_app. do 2 f_equal.
    rewrite headersToString_in_blocks. cbn [map]. rewrite glue_singleton.
    unfold header_block. cbn [fst snd].
    destruct values as [|v values]; [simpl in Hlen; lia | done].
  - intros out. rewrite headersToString_singleton. done.
Qed.

Lemma headersToString_repeats_name_witness :
  ∃ l1 l2,
    (l1 ++ ("X-Foo", ["a"; "b"]) :: l2)%list
      ≡ₚ map_to_list ({["X-Foo" := ["a"; "b"]]} : http.Header) ∧
    ("X-Foo: a" ++ LF ++ "X-Foo: b" ++ LF)%string
    = (headersToString_in l1
       ++ glue (map (λ v, "X-Foo" ++ ": " ++ v ++ LF) ["a"; "b"])
       ++ headersToString_in l2)%string.
Proof.
  apply (proj1 headersToString_repeats_name {["X-Foo" := ["a"; "b"]]}).
  - apply headersToString_singleton. reflexivity.
  - apply lookup_singleton_eq.
  - simpl. lia.
Defined.

Lemma inserted_A_B :
  map_to_list (inserted [("A", ["1"]); ("B", ["2"])])
    ≡ₚ [("B", ["2"]); ("A", ["1"])].
Proof.
  unfold inserted. cbn [fold_left fst snd].
  rewrite map_to_list_insert by (by rewrite lookup_insert_ne).
  rewrite map_to_list_insert by done.
  by rewrite map_to_list_empty.
Qed.

(** C6, refuted as stated: after "A" and then "B" were added to an
    empty multimap, [headersToString] can give the block of "B" before
    the block of "A"; the output neither follows the order in which the
    names were added nor is it the same string on every call. *)
Lemma headersToString_order_counterexample :
  headersToString (inserted [("A", ["1"]); ("B", ["2"])])
                  ("B: 2" ++ LF ++ "A: 1" ++ LF)%string
  ∧ headersToString (inserted [("A", ["1"]); ("B", ["2"])])
                    ("A: 1" ++ LF ++ "B: 2" ++ LF)%string
  ∧ ¬ keeps_insertion_order [("A", ["1"]); ("B", ["2"])]
  ∧ ¬ single_valued (inserted [("A", ["1"]); ("B", ["2"])]).
Proof.
  assert (HBA : headersToString (inserted [("A", ["1"]); ("B", ["2"])])
                                ("B: 2" ++ LF ++ "A: 1" ++ LF)%string).
  { exists [("B", ["2"]); ("A", ["1"])]. split; [| done].
    unfold range_order. by rewrite inserted_A_B. }
  assert (HAB : headersToString (inserted [("A", ["1"]); ("B", ["2"])])
                                ("A: 1" ++ LF ++ "B: 2" ++ LF)%string).
  { exists [("A", ["1"]); ("B", ["2"])]. split; [| done].
    unfold range_order. rewrite inserted_A_B. apply Permutation_swap. }
  split_and!; [done | done | |].
  - intros Hkeep. specialize (Hkeep _ HBA). vm_compute in Hkeep. discriminate.
  - intros Hsame. specialize (Hsame _ _ HBA HAB). vm_compute in Hsame.
    discriminate.
Qed.

(** C6, amended: the strings that [headersToString] can give for a
    multimap are the blocks of its entries, one block per header name,
    put one after the other in an order of the entries (the order in
    which the range over the map yields them, which Go leaves open); the
    block of a name holds the values of the name in their stored
    order, one line each. *)
Theorem headersToString_blocks_in_range_order
        (headers : http.Header) (out : string) :
  headersToString headers out
  ↔ ∃ order,
      order ≡ₚ map_to_list headers ∧
      out = glue (map (λ e : string * list string,
                         match e.2 with
                         | [] => e.1 ++ ": " ++ LF
                         | values => glue (map (λ v, e.1 ++ ": " ++ v ++ LF) values)
                         end)%string order).
Proof.
  unfold headersToString, range_order.
  split; intros (order & Hperm & ->); exists order; (split; [done |]);
    rewrite headersToString_in_blocks; f_equal; apply map_ext;
    intros [name values]; unfold header_block; cbn [fst snd];
    by destruct values.
Qed.

End headers_claims.

(** ** dumpResponseWithRedirectChain *)
Section chain_facts.
Import RedirectChain.

Variable DumpResponse : http.Response → bool → bytes * option io.error.

Local Abbreviation walk := (RedirectChain.walk DumpResponse).
Local Abbreviation dumpResponseWithRedirectChain :=
  (RedirectChain.dumpResponseWithRedirectChain DumpResponse).
Local Abbreviation renders := (RedirectChain.renders DumpResponse).
Local Abbreviation head_of := (RedirectChain.head_of DumpResponse).
Local Abbreviation hop_record := (RedirectChain.hop_record DumpResponse).
Local Abbreviation final_record := (RedirectChain.final_record DumpResponse).
Local Abbreviation stops := (RedirectChain.stops DumpResponse).

(** The last loop writes the records from the last one pushed to the
    first. *)
Lemma emit_take (redirects : list string) (n : nat) (redirectChain : Buffer.t) :
  (n ≤ length redirects)%nat →
  emit redirects n redirectChain
  = (redirectChain ++ glue (reverse (take n redirects)))%string.
Proof.
  revert redirectChain. induction n as [|i IH]; intros redirectChain Hn.
  - simpl. by rewrite append_nil_r.
  - destruct (lookup_lt_is_Some_2 redirects i) as [s Hs]; [lia |].
    cbn [emit]. rewrite IH by lia.
    rewrite (take_S_r _ _ _ Hs), reverse_snoc, glue_cons.
    rewrite (nth_lookup_Some _ _ _ _ Hs).
    unfold Buffer.WriteString. by rewrite append_assoc.
Qed.

Lemma emit_all (redirects : list string) :
  emit redirects (length redirects) Buffer.empty = glue (reverse redirects).
Proof.
  rewrite emit_take by done. by rewrite firstn_all.
Qed.

(** Appending a body that may be empty. *)
Lemma write_body (redirectChain : Buffer.t) (body : bytes) :
  (if 0 <? len body
   then Buffer.WriteString redirectChain (UnsafeToString body)
   else redirectChain)
  = (redirectChain ++ body)%string.
Proof.
  destruct body as [|c body].
  - change (0 <? len "") with false. cbv iota. symmetry. apply append_nil_r.
  - unfold len. simpl. done.
Qed.

Lemma walk_path (h : http.heap) (p q : option http.addr) (l : list http.Response) :
  path h p l q →
  Forall renders l →
  stops h q →
  ∀ fuel redirects,
    (length l < fuel)%nat →
    walk fuel h p redirects Buffer.empty
    = Returned ((redirects ++ map hop_record l)%list, Buffer.empty).
Proof.
  induction 1 as [p | a r rq l q Ha Hrq Hpath IH]; intros Hl Hq fuel redirects Hfuel.
  - rewrite app_nil_r.
    destruct Hq as [-> | (b & r & -> & Hb & Hfail)]; [by destruct fuel |].
    destruct fuel as [|fuel]; [simpl in Hfuel; lia |].
    cbn [RedirectChain.walk]. rewrite Hb. cbn [deref mbind exec_bind].
    unfold RedirectChain.renders in Hfail.
    destruct (DumpResponse r false) as [respData [e|]]; [done | by destruct Hfail].
  - destruct fuel as [|fuel]; [simpl in Hfuel; lia |].
    apply Forall_cons in Hl as [Hr Hl].
    cbn [RedirectChain.walk]. rewrite Ha. cbn [deref mbind exec_bind].
    unfold RedirectChain.renders in Hr.
    unfold RedirectChain.hop_record at 1, RedirectChain.head_of, RedirectChain.body_read.
    cbn [map].
    destruct (DumpResponse r false) as [respData err]. cbn [fst snd] in *.
    subst err. rewrite Hrq. cbn [deref mbind exec_bind].
    rewrite write_body. unfold Buffer.WriteString, Buffer.String, Buffer.Reset,
      UnsafeToString, Buffer.empty.
    rewrite append_nil_l.
    rewrite IH by (done || (simpl in Hfuel; lia)).
    by rewrite <- app_assoc.
Qed.

(** A response that renders but holds no request stops the walk with a
    fault. *)
Lemma walk_nil_request (h : http.heap) (a : http.addr) (r : http.Response)
      (fuel : nat) (redirects : list string) (redirectChain : Buffer.t) :
  h !! a = Some r →
  renders r →
  http.resp_Request r = None →
  walk (S fuel) h (Some a) redirects redirectChain = Panicked.
Proof.
  intros Ha Hr Hnil. cbn [RedirectChain.walk]. rewrite Ha.
  cbn [deref mbind exec_bind]. unfold RedirectChain.renders in Hr.
  destruct (DumpResponse r false) as [respData err]. cbn [snd] in Hr. subst err.
  by rewrite Hnil.
Qed.

(** *** Termination *)

Lemma acyclic_from_link (h : http.heap) (a b : http.addr) :
  acyclic_from h a → link h a b → acyclic_from h b.
Proof. intros Hac Hab c Hbc. apply Hac. by eapply rtc_l. Qed.

(** With [visited] the addresses already met, all of which lead to the
    current one, the loop ends before it has made more turns than the
    heap has responses left. *)
Lemma walk_ends (fuel : nat) :
  ∀ (h : http.heap) (p : option http.addr) (visited : gset http.addr)
    (redirects : list string) (redirectChain : Buffer.t),
    (∀ a, p = Some a →
          acyclic_from h a ∧ ∀ v, v ∈ visited → tc (link h) v a) →
    visited ⊆ dom h →
    (size h < fuel + size visited)%nat →
    walk fuel h p redirects redirectChain ≠ OutOfFuel.
Proof.
  induction fuel as [|fuel IH]; intros h p visited redirects redirectChain Hp Hsub Hsize.
  - apply subseteq_size in Hsub. rewrite size_dom in Hsub. lia.
  - destruct p as [a|]; [| done].
    destruct (Hp a eq_refl) as [Hac Hvis].
    cbn [RedirectChain.walk].
    destruct (h !! a) as [r|] eqn:Ha; [| done]. cbn [deref mbind exec_bind].
    destruct (DumpResponse r false) as [respData [e|]]; [done |].
    destruct (http.resp_Request r) as [rq|] eqn:Hrq; [| done].
    cbn [deref mbind exec_bind].
    assert (Hfresh : a ∉ visited).
    { intros Hin. apply (Hac a); [done | by apply Hvis]. }
    apply (IH h _ ({[a]} ∪ visited)).
    + intros b Hb.
      assert (Hab : link h a b).
      { exists r. split; [done |]. unfold previous. by rewrite Hrq. }
      split; [by eapply acyclic_from_link |].
      intros v [->%elem_of_singleton | Hv]%elem_of_union.
      * by apply tc_once.
      * eapply tc_r; [by apply Hvis | done].
    + apply union_subseteq. split; [| done].
      apply singleton_subseteq_l, elem_of_dom. by rewrite Ha.
    + rewrite size_union by (by apply disjoint_singleton_l).
      rewrite size_singleton. lia.
Qed.

(** Where every response that is met holds its request, the loop does
    not fault. *)
Lemma walk_no_fault (fuel : nat) :
  ∀ (h : http.heap) (p : option http.addr)
    (redirects : list string) (redirectChain : Buffer.t),
    (∀ a, p = Some a →
          ∀ b, rtc (link h) a b →
               ∃ r rq, h !! b = Some r ∧ http.resp_Request r = Some rq) →
    walk fuel h p redirects redirectChain ≠ Panicked.
Proof.
  induction fuel as [|fuel IH]; intros h p redirects redirectChain Hp.
  - by destruct p.
  - destruct p as [a|]; [| done].
    destruct (Hp a eq_refl a) as (r & rq & Ha & Hrq); [done |].
    cbn [RedirectChain.walk]. rewrite Ha. cbn [deref mbind exec_bind].
    destruct (DumpResponse r false) as [respData [e|]]; [done |].
    rewrite Hrq. cbn [deref mbind exec_bind].
    apply IH. intros b Hb c Hbc. apply (Hp a eq_refl).
    eapply rtc_l; [| done]. exists r. split; [done |].
    unfold previous. by rewrite Hrq.
Qed.

(** More fuel does not change a run that has ended. *)
Lemma walk_fuel_mono (fuel : nat) :
  ∀ (h : http.heap) (p : option http.addr) (redirects : list string)
    (redirectChain : Buffer.t) (fuel' : nat),
    walk fuel h p redirects redirectChain ≠ OutOfFuel →
    (fuel ≤ fuel')%nat →
    walk fuel' h p redirects redirectChain = walk fuel h p redirects redirectChain.
Proof.
  induction fuel as [|fuel IH]; intros h p redirects redirectChain fuel' Hend Hle.
  - destruct p as [a|]; [done | by destruct fuel'].
  - destruct fuel' as [|fuel']; [lia |].
    destruct p as [a|]; [| done].
    cbn [RedirectChain.walk] in *.
    destruct (h !! a) as [r|]; [| done]. cbn [deref mbind exec_bind] in *.
    destruct (DumpResponse r false) as [respData [e|]]; [done |].
    destruct (http.resp_Request r) as [rq|]; [| done].
    cbn [deref mbind exec_bind] in *. apply IH; [done | lia].
Qed.

End chain_facts.

(** *** Chains are acyclic *)
Section path_facts.
Import RedirectChain.

Variable h : http.heap.

Lemma link_functional (a b c : http.addr) : link h a b → link h a c → b = c.
Proof. intros (r & Hr & Hb) (r' & Hr' & Hc). congruence. Qed.

Lemma path_nil_start (l : list http.Response) (q : option http.addr) :
  path h None l q → l = [] ∧ q = None.
Proof. by inversion 1. Qed.

Lemma path_link (a b : http.addr) (l : list http.Response) :
  path h (Some a) l None → link h a b →
  ∃ r l', l = r :: l' ∧ h !! a = Some r ∧ path h (Some b) l' None.
Proof.
  intros Hpath (r & Hr & Hb).
  inversion Hpath as [| a' r' rq l' q Ha Hrq Hrest]; simplify_eq.
  exists r, l'. split_and!; [done.. |].
  unfold previous in Hb. rewrite Hrq in Hb. cbn in Hb. by rewrite <- Hb.
Qed.

Lemma path_tc_shorter (a b : http.addr) :
  tc (link h) a b →
  ∀ l, path h (Some a) l None →
       ∃ l', path h (Some b) l' None ∧ (length l' < length l)%nat.
Proof.
  induction 1 as [a b Hab | a c b Hac _ IH]; intros l Hpath.
  - destruct (path_link _ _ _ Hpath Hab) as (r & l' & -> & _ & Hl').
    exists l'. split; [done | simpl; lia].
  - destruct (path_link _ _ _ Hpath Hac) as (r & l' & -> & _ & Hl').
    destruct (IH _ Hl') as (l'' & Hl'' & Hlen).
    exists l''. split; [done | simpl; lia].
Qed.

Lemma path_length_unique (p : option http.addr) (l : list http.Response) :
  path h p l None → ∀ l', path h p l' None → length l = length l'.
Proof.
  remember None as q eqn:Hq. induction 1 as [p | a r rq l q Ha Hrq _ IH];
    intros l' Hl'; subst.
  - by apply path_nil_start in Hl' as [-> _].
  - inversion Hl' as [| a' r' rq' l'' q' Ha' Hrq' Hrest]; simplify_eq.
    simpl. f_equal. by apply IH.
Qed.

Lemma path_no_cycle (a : http.addr) (l : list http.Response) :
  path h (Some a) l None → ¬ tc (link h) a a.
Proof.
  intros Hpath Hcycle.
  destruct (path_tc_shorter _ _ Hcycle _ Hpath) as (l' & Hl' & Hlen).
  pose proof (path_length_unique _ _ Hpath _ Hl'). lia.
Qed.

Lemma path_reach (a b : http.addr) (l : list http.Response) :
  path h (Some a) l None → rtc (link h) a b → ∃ l', path h (Some b) l' None.
Proof.
  intros Hpath [-> | Hab]%rtc_tc; [by exists l |].
  destruct (path_tc_shorter _ _ Hab _ Hpath) as (l' & Hl' & _). by exists l'.
Qed.

(** The final response [r] at [a] of a chain, and all that lies behind
    it, are on no cycle. *)
Lemma chain_acyclic (a : http.addr) (r : http.Response) (earlier : list http.Response) :
  h !! a = Some r → chain h earlier r → acyclic_from h a.
Proof.
  unfold chain. intros Ha Hpath b Hab Hbb.
  assert (Hb : ∃ l', path h (Some b) l' None); [| destruct Hb as [l' Hl'];
    by apply (path_no_cycle _ _ Hl')].
  assert (Hnext : ∀ c, link h a c → path h (Some c) (reverse earlier) None).
  { intros c (r' & Hr' & Hc). assert (r' = r) as -> by congruence.
    by rewrite Hc in Hpath. }
  assert (Hbehind : ∀ c, tc (link h) a c → ∃ l', path h (Some c) l' None).
  { intros c Hac. apply tc_rtc_l with (x := a) in Hac; [| done].
    inversion Hac as [? c' Hl | ? c' ? Hl Hrest]; subst.
    - eexists. by apply Hnext.
    - eapply path_reach; [by apply Hnext | by apply tc_rtc]. }
  apply rtc_tc in Hab as [<- | Hab]; [| by apply Hbehind].
  by apply Hbehind.
Qed.

Lemma chain_well_linked (a : http.addr) (r : http.Response) (earlier : list http.Response) :
  h !! a = Some r → chain h earlier r → well_linked h a.
Proof.
  unfold chain. intros Ha Hpath. split; [done |].
  intros b Hab.
  assert (Hb : ∃ l', path h (Some b) l' None).
  { inversion Hab as [? ? (r' & Hr' & Hc) | ? c ? (r' & Hr' & Hc) Hrest]; subst;
      assert (r' = r) as -> by congruence; rewrite Hc in Hpath.
    - by eexists.
    - eapply path_reach; [done | by apply tc_rtc]. }
  destruct Hb as [l' Hl'].
  inversion Hl' as [| ? rb rq ? ? Hb Hrq _]; subst. by exists rb, rq.
Qed.

End path_facts.

(** *** The statements about dumpResponseWithRedirectChain *)
Section chain_claims.
Import RedirectChain.

Variable DumpResponse : http.Response → bool → bytes * option io.error.

Local Abbreviation walk := (RedirectChain.walk DumpResponse).
Local Abbreviation dumpResponseWithRedirectChain :=
  (RedirectChain.dumpResponseWithRedirectChain DumpResponse).
Local Abbreviation renders := (RedirectChain.renders DumpResponse).
Local Abbreviation head_of := (RedirectChain.head_of DumpResponse).
Local Abbreviation hop_record := (RedirectChain.hop_record DumpResponse).
Local Abbreviation final_record := (RedirectChain.final_record DumpResponse).
Local Abbreviation stops := (RedirectChain.stops DumpResponse).

(** The dump of a final response that renders, when the walk back from
    it stops without a fault after the responses [later] (listed in the
    order of the requests). *)
Lemma dump_walked (h : http.heap) (a : http.addr) (r : http.Response)
      (later : list http.Response) (q : option http.addr) (body : bytes) (fuel : nat) :
  h !! a = Some r →
  renders r →
  path h (previous r) (reverse later) q →
  stops h q →
  Forall renders later →
  (length later < fuel)%nat →
  dumpResponseWithRedirectChain fuel h (Some a) body
  = Returned ((glue (map hop_record later) ++ final_record r body)%string, None).
Proof.
  intros Ha Hr Hpath Hq Hlater Hfuel.
  unfold RedirectChain.dumpResponseWithRedirectChain.
  cbn [deref mbind exec_bind]. rewrite Ha. cbn [deref mbind exec_bind].
  unfold RedirectChain.renders in Hr. unfold RedirectChain.final_record, RedirectChain.head_of.
  destruct (DumpResponse r false) as [respData err]. cbn [fst snd] in *. subst err.
  change (match http.resp_Request r with
          | Some rq => http.req_Response rq
          | None => None
          end) with (previous r).
  unfold Buffer.Reset.
  rewrite (walk_path DumpResponse h _ q (reverse later)); try done.
  - cbn [mbind exec_bind]. rewrite emit_all.
    cbn [app]. rewrite reverse_cons, <- map_reverse, reverse_involutive, glue_app.
    by rewrite glue_singleton.
  - by apply Forall_reverse.
  - by rewrite length_reverse.
Qed.

(** C1: when the final response and the responses of the earlier hops
    of its redirect chain render, [dumpResponseWithRedirectChain] returns
    the records of the hops in the order of the requests, the record of
    the first hop first and that of the final hop last, one glued to the
    next with nothing in between; the chain may have any length, and the
    loop needs one turn per earlier hop. *)
Theorem dump_chronological (h : http.heap) (a : http.addr) (r : http.Response)
        (earlier : list http.Response) (body : bytes) (fuel : nat) :
  h !! a = Some r →
  chain h earlier r →
  renders r →
  Forall renders earlier →
  (length earlier < fuel)%nat →
  dumpResponseWithRedirectChain fuel h (Some a) body
  = Returned ((glue (map hop_record earlier) ++ final_record r body)%string, None).
Proof.
  intros Ha Hchain Hr Hearlier Hfuel.
  apply dump_walked with (q := None); try done. by left.
Qed.

(** C2, amended: an error is returned exactly when the final response
    does not render; when the walk back meets a response that does not
    render it stops there, and the records of the hops after that
    response are returned with a nil error; a body whose reading fails
    does not stop the dump either, and the record of its hop is the
    status line and headers followed by the bytes that were read before
    the failure. *)
Theorem dump_error_policy :
  (∀ fuel h resp body out e,
      dumpResponseWithRedirectChain fuel h resp body = Returned (out, Some e) →
      ∃ a r, resp = Some a ∧ h !! a = Some r ∧ (DumpResponse r false).2 = Some e)
  ∧ (∀ fuel h a r e body,
        h !! a = Some r →
        (DumpResponse r false).2 = Some e →
        dumpResponseWithRedirectChain fuel h (Some a) body = Returned ("", Some e))
  ∧ (∀ fuel h a r later q body,
        h !! a = Some r →
        renders r →
        path h (previous r) (reverse later) q →
        stops h q →
        Forall renders later →
        (length later < fuel)%nat →
        dumpResponseWithRedirectChain fuel h (Some a) body
        = Returned
            ((glue (map (λ r', head_of r'
                               ++ match http.resp_Body r' with
                                  | Some b => io.pending b
                                  | None => ""
                                  end) later)
              ++ head_of r ++ body)%string, None)).
Proof.
  split_and!.
  - intros fuel h resp body out e.
    unfold RedirectChain.dumpResponseWithRedirectChain.
    destruct resp as [a|]; [| done]. cbn [deref mbind exec_bind].
    destruct (h !! a) as [r|] eqn:Ha; [| done]. cbn [deref mbind exec_bind].
    destruct (DumpResponse r false) as [respData [e'|]] eqn:Hdump.
    + intros [= _ ->]. exists a, r. by rewrite Hdump.
    + destruct (RedirectChain.walk _ _ _ _ _ _) as [[redirects chain]| |]; done.
  - intros fuel h a r e body Ha Hr.
    unfold RedirectChain.dumpResponseWithRedirectChain.
    cbn [deref mbind exec_bind]. rewrite Ha. cbn [deref mbind exec_bind].
    destruct (DumpResponse r false) as [respData err]. cbn [snd] in Hr. by subst err.
  - intros fuel h a r later q body Ha Hr Hpath Hq Hlater Hfuel.
    by rewrite (dump_walked h a r later q body fuel).
Qed.

(** Without a cycle behind the final response the loop ends within as
    many turns as the heap has responses. *)
Lemma dump_ends (h : http.heap) (a : http.addr) (body : bytes) (fuel : nat) :
  acyclic_from h a →
  (size h ≤ fuel)%nat →
  dumpResponseWithRedirectChain fuel h (Some a) body ≠ OutOfFuel
  ∧ (well_linked h a →
     ∃ out, dumpResponseWithRedirectChain fuel h (Some a) body = Returned out).
Proof.
  intros Hac Hfuel.
  unfold RedirectChain.dumpResponseWithRedirectChain.
  cbn [deref mbind exec_bind].
  destruct (h !! a) as [r|] eqn:Ha; cbn [deref mbind exec_bind];
    [| split; [done | intros [[? ?] _]; congruence]].
  destruct (DumpResponse r false) as [respData [e|]]; [split; [done | by eexists] |].
  set (first := match http.resp_Request r with
                | Some rq => http.req_Response rq
                | None => None
                end).
  assert (Hfirst : ∀ b, first = Some b → link h a b).
  { intros b Hb. exists r. split; [done |]. exact Hb. }
  pose proof (walk_ends DumpResponse fuel h first {[a]}) as Hends.
  pose proof (walk_no_fault DumpResponse fuel h first) as Hsafe.
  destruct (RedirectChain.walk _ _ _ _ _ _) as [[redirects chain]| |] eqn:Hwalk;
    cbn [mbind exec_bind].
  - split; [done | by eexists].
  - split; [done |]. intros [_ Hlinked]. exfalso. eapply Hsafe; [| done].
    intros b Hb c Hbc. apply Hlinked. eapply tc_rtc_r; [| done].
    by apply tc_once, Hfirst.
  - exfalso. eapply Hends; [| | | done].
    + intros b Hb. split; [eapply acyclic_from_link; [done | by apply Hfirst] |].
      intros v ->%elem_of_singleton. by apply tc_once, Hfirst.
    + apply singleton_subseteq_l, elem_of_dom. by rewrite Ha.
    + rewrite size_singleton. lia.
Qed.

Lemma dump_fuel_mono (h : http.heap) (resp : option http.addr) (body : bytes)
      (fuel fuel' : nat) :
  dumpResponseWithRedirectChain fuel h resp body ≠ OutOfFuel →
  (fuel ≤ fuel')%nat →
  dumpResponseWithRedirectChain fuel' h resp body
  = dumpResponseWithRedirectChain fuel h resp body.
Proof.
  unfold RedirectChain.dumpResponseWithRedirectChain. intros Hend Hle.
  destruct resp as [a|]; [| done]. cbn [deref mbind exec_bind] in *.
  destruct (h !! a) as [r|]; [| done]. cbn [deref mbind exec_bind] in *.
  destruct (DumpResponse r false) as [respData [e|]]; [done |].
  rewrite (walk_fuel_mono DumpResponse fuel _ _ _ _ fuel'); [done | | done].
  intros Hwalk. by rewrite Hwalk in Hend.
Qed.

(** C4: on a heap in which no response that can be reached from the
    final one lies on a cycle, the backward walk ends:
    [dumpResponseWithRedirectChain] has one outcome for every number of
    loop turns it is allowed that is at least the number of responses in
    the heap, and that outcome is a return when every response that is
    met holds its request. *)
Theorem dump_terminates (h : http.heap) (a : http.addr) (body : bytes) :
  acyclic_from h a →
  ∃ outcome,
    outcome ≠ OutOfFuel
    ∧ (∀ fuel, (size h ≤ fuel)%nat →
               dumpResponseWithRedirectChain fuel h (Some a) body = outcome)
    ∧ (well_linked h a → ∃ out, outcome = Returned out).
Proof.
  intros Hac.
  destruct (dump_ends h a body (size h) Hac) as [Hend Hret]; [done |].
  exists (dumpResponseWithRedirectChain (size h) h (Some a) body).
  split_and!; [done | | done].
  intros fuel Hfuel. by apply dump_fuel_mono.
Qed.

End chain_claims.

(** *** On the sample inputs *)
Section chain_samples.
Import RedirectChain Sample.

Lemma three_hops_chain : chain three_hops [moved; found] ok.
Proof.
  unfold chain. change (previous ok) with (Some 2%positive).
  change (reverse [moved; found]) with [found; moved].
  eapply path_back; [reflexivity | reflexivity |].
  eapply path_back; [reflexivity | reflexivity |].
  apply path_here.
Qed.

Lemma dump_chronological_witness :
  dumpResponseWithRedirectChain render 3%nat three_hops (Some 3%positive) "BODY"
  = Returned (("HTTP/1.1 301 Moved Permanently" ++ CRLF ++ CRLF ++ "one"
               ++ "HTTP/1.1 302 Found" ++ CRLF ++ CRLF ++ "tw"
               ++ "HTTP/1.1 200 OK" ++ CRLF ++ CRLF ++ "BODY")%string, None).
Proof.
  apply (dump_chronological render three_hops 3%positive ok [moved; found] "BODY" 3%nat).
  - reflexivity.
  - apply three_hops_chain.
  - reflexivity.
  - repeat constructor.
  - simpl. lia.
Defined.

(** C2, refuted as stated: the body of the second hop delivers two bytes
    and then fails; the dump holds these two bytes after the status line
    and headers of that hop, where the claim has the body left out. *)
Lemma dump_failed_body_counterexample :
  http.resp_Body found = Some (io.mkReader "tw" (Some io.ErrUnexpectedEOF))
  ∧ io.ReadAll (io.mkReader "tw" (Some io.ErrUnexpectedEOF))
    = ("tw", Some io.ErrUnexpectedEOF)
  ∧ dumpResponseWithRedirectChain render 3%nat three_hops (Some 3%positive) "BODY"
    = Returned (("HTTP/1.1 301 Moved Permanently" ++ CRLF ++ CRLF ++ "one"
                 ++ "HTTP/1.1 302 Found" ++ CRLF ++ CRLF ++ "tw"
                 ++ "HTTP/1.1 200 OK" ++ CRLF ++ CRLF ++ "BODY")%string, None)
  ∧ (glue (map (record_without_failed_body render) [moved; found])
     ++ final_record render ok "BODY")%string
    = ("HTTP/1.1 301 Moved Permanently" ++ CRLF ++ CRLF ++ "one"
       ++ "HTTP/1.1 302 Found" ++ CRLF ++ CRLF
       ++ "HTTP/1.1 200 OK" ++ CRLF ++ CRLF ++ "BODY")%string
  ∧ dumpResponseWithRedirectChain render 3%nat three_hops (Some 3%positive) "BODY"
    ≠ Returned ((glue (map (record_without_failed_body render) [moved; found])
                 ++ final_record render ok "BODY")%string, None).
Proof.
  split_and!; [reflexivity.. |]. vm_compute. discriminate.
Qed.

Lemma dump_error_policy_witness :
  dumpResponseWithRedirectChain render 3%nat three_hops (Some 3%positive) "BODY"
  = Returned
      ((glue (map (λ r', head_of render r'
                         ++ match http.resp_Body r' with
                            | Some b => io.pending b
                            | None => ""
                            end) [moved; found])
        ++ head_of render ok ++ "BODY")%string, None).
Proof.
  apply (proj2 (proj2 (dump_error_policy render))
           3%nat three_hops 3%positive ok [moved; found] None "BODY").
  - reflexivity.
  - reflexivity.
  - apply three_hops_chain.
  - by left.
  - repeat constructor.
  - simpl. lia.
Defined.

(** A hop that does not render cuts the dump short. *)
Example garbled_hop_dump :
  dumpResponseWithRedirectChain render 3%nat garbled_hop (Some 3%positive) "BODY"
  = Returned (("HTTP/1.1 200 OK" ++ CRLF ++ CRLF ++ "BODY")%string, None).
Proof. reflexivity. Qed.

(** C3, the fault: the final response at address 2 was obtained by a
    request whose [Response] is the response at address 1, and that
    response holds no request.  The first step back is guarded by
    [resp.Request != nil]; the step at the end of the loop reads
    [redirectResp.Request.Response] without that guard and faults, where
    the claim has the records gathered so far returned. *)
Theorem dump_nil_request_faults (fuel : nat) :
  dumpResponseWithRedirectChain render (S fuel) orphan_hop (Some 2%positive) "BODY"
  = Panicked.
Proof. reflexivity. Qed.

Lemma dump_terminates_witness :
  ∃ outcome,
    outcome ≠ OutOfFuel
    ∧ (∀ fuel, (size three_hops ≤ fuel)%nat →
               dumpResponseWithRedirectChain render fuel three_hops (Some 3%positive) "BODY"
               = outcome)
    ∧ (well_linked three_hops 3%positive → ∃ out, outcome = Returned out).
Proof.
  apply (dump_terminates render three_hops 3%positive "BODY").
  apply (chain_acyclic three_hops 3%positive ok [moved; found]);
    [reflexivity | apply three_hops_chain].
Defined.

(** On a cycle the loop makes every turn it is given. *)
Lemma looped_walk (fuel : nat) :
  ∀ redirects redirectChain,
    walk render fuel looped (Some 1%positive) redirects redirectChain = OutOfFuel.
Proof.
  induction fuel as [|fuel IH]; intros redirects redirectChain; [done |].
  cbn [walk]. change (looped !! 1%positive) with (Some again).
  cbn [deref mbind exec_bind].
  change (render again false) with (("HTTP/1.1 302 Found" ++ CRLF ++ CRLF)%string, @None io.error).
  cbv iota. change (http.resp_Request again) with (Some (get (Some 1%positive))).
  cbn [deref mbind exec_bind].
  change (http.req_Response (get (Some 1%positive))) with (Some 1%positive).
  apply IH.
Qed.

Example looped_dump_runs_on (fuel : nat) :
  dumpResponseWithRedirectChain render fuel looped (Some 2%positive) "BODY" = OutOfFuel.
Proof.
  unfold dumpResponseWithRedirectChain. cbn [deref mbind exec_bind].
  change (looped !! 2%positive) with (Some landed). cbn [deref mbind exec_bind].
  change (render landed false) with (("HTTP/1.1 200 OK" ++ CRLF ++ CRLF)%string, @None io.error).
  cbv iota. change (http.resp_Request landed) with (Some (get (Some 1%positive))).
  cbv iota. change (http.req_Response (get (Some 1%positive))) with (Some 1%positive).
  by rewrite looped_walk.
Qed.

End chain_samples.

(** ** handleDecompression *)
Section decompress_claims.
Import Decompress.

Variable unicode_ToLower unicode_TrimSpace : string → string.
Variable gzip_NewReader : bytes → io.Reader * option io.error.

Local Abbreviation handleDecompression :=
  (Decompress.handleDecompression unicode_ToLower unicode_TrimSpace gzip_NewReader).
Local Abbreviation encoding_of :=
  (Decompress.encoding_of unicode_ToLower unicode_TrimSpace).

Lemma encoding_of_absent (resp : http.Response) :
  http.resp_Header resp !! "Content-Encoding" = None →
  encoding_of resp = "".
Proof.
  intros Habsent. unfold Decompress.encoding_of, http.Get. by rewrite Habsent.
Qed.

Lemma encoding_of_identity (resp : http.Response) :
  http.Get (http.resp_Header resp) "Content-Encoding" = "identity" →
  encoding_of resp = "identity".
Proof.
  intros Hid. unfold Decompress.encoding_of. by rewrite Hid.
Qed.

(** Without a response there is nothing to decode. *)
Lemma handleDecompression_nil (bodyOrig : bytes) :
  handleDecompression None bodyOrig = (bodyOrig, None).
Proof. done. Qed.

Lemma handleDecompression_other (resp : http.Response) (bodyOrig : bytes) :
  strings.Contains (encoding_of resp) "gzip" = false →
  handleDecompression (Some resp) bodyOrig = (bodyOrig, None).
Proof.
  intros Hother. unfold Decompress.handleDecompression.
  fold (encoding_of resp). by rewrite Hother.
Qed.

(** C7: with a Content-Encoding that, trimmed and in lower case, holds
    "gzip", and a body that is the gzip compression of [x] (by a
    compressor [gz] whose output the gzip reader reads back),
    [handleDecompression] returns [x] and a nil error; with the
    Content-Encoding "identity", or without that header, it returns the
    body it was given and a nil error. *)
Theorem handleDecompression_round_trip :
  (∀ (gz : bytes → bytes) (resp : http.Response) (x : bytes),
      compresses gzip_NewReader gz →
      strings.Contains (encoding_of resp) "gzip" = true →
      handleDecompression (Some resp) (gz x) = (x, None))
  ∧ (∀ (resp : http.Response) (bodyOrig : bytes),
        http.Get (http.resp_Header resp) "Content-Encoding" = "identity"
        ∨ http.resp_Header resp !! "Content-Encoding" = None →
        handleDecompression (Some resp) bodyOrig = (bodyOrig, None)).
Proof.
  split.
  - intros gz resp x Hgz Hgzip. unfold Decompress.handleDecompression.
    fold (encoding_of resp). rewrite Hgzip, (Hgz x). done.
  - intros resp bodyOrig [Hid | Habsent]; apply handleDecompression_other.
    + by rewrite encoding_of_identity.
    + by rewrite encoding_of_absent.
Qed.

(** C8: with a Content-Encoding that holds "gzip", when the gzip reader
    cannot be made for the body, or when reading from it fails,
    [handleDecompression] returns the body it was given, unchanged,
    together with the error. *)
Theorem handleDecompression_falls_back (resp : http.Response) (bodyOrig : bytes) :
  strings.Contains (encoding_of resp) "gzip" = true →
  (∀ e, (gzip_NewReader bodyOrig).2 = Some e →
        handleDecompression (Some resp) bodyOrig = (bodyOrig, Some e))
  ∧ (∀ gzipreader e,
        gzip_NewReader bodyOrig = (gzipreader, None) →
        (io.ReadAll gzipreader).2 = Some e →
        handleDecompression (Some resp) bodyOrig = (bodyOrig, Some e)).
Proof.
  intros Hgzip. unfold Decompress.handleDecompression.
  fold (encoding_of resp). rewrite Hgzip. split.
  - intros e He. destruct (gzip_NewReader bodyOrig) as [gzipreader err].
    cbn [snd] in He. by subst err.
  - intros gzipreader e -> He.
    destruct (io.ReadAll gzipreader) as [bodyDec err]. cbn [snd] in He. by subst err.
Qed.

End decompress_claims.

Section decompress_samples.
Import Decompress Sample.

Lemma substring_all (s : string) : String.substring 0 (String.length s) s = s.
Proof. induction s as [|c s IH]; [done |]. simpl. by rewrite IH. Qed.

Lemma gz_compresses : compresses gunzip gz.
Proof.
  intros x. unfold gunzip, gz.
  change (magic ++ "1" ++ x)%string
    with (String (ascii_of_nat 31) (String (ascii_of_nat 139) (String "1"%char x))).
  simpl. by rewrite substring_all.
Qed.

Lemma handleDecompression_round_trip_witness :
  handleDecompression same same gunzip (Some (encoded " GZip")) (gz "hello")
  = ("hello", None)
  ∧ handleDecompression same same gunzip (Some (encoded "identity")) "hello"
    = ("hello", None)
  ∧ handleDecompression same same gunzip (Some plain) "hello" = ("hello", None).
Proof.
  split_and!.
  - apply (proj1 (handleDecompression_round_trip same same gunzip) gz (encoded " GZip")).
    + apply gz_compresses.
    + reflexivity.
  - apply (proj2 (handleDecompression_round_trip same same gunzip) (encoded "identity")).
    left. reflexivity.
  - apply (proj2 (handleDecompression_round_trip same same gunzip) plain).
    right. reflexivity.
Defined.

Lemma handleDecompression_falls_back_witness :
  handleDecompression same same gunzip (Some (encoded "gzip")) "hello"
  = ("hello", Some (io.errorString "gzip: invalid header"))
  ∧ handleDecompression same same gunzip (Some (encoded "gzip")) (magic ++ "0hel")
    = ((magic ++ "0hel")%string, Some io.ErrUnexpectedEOF).
Proof.
  split.
  - apply (proj1 (handleDecompression_falls_back same same gunzip
                    (encoded "gzip") "hello" eq_refl)).
    reflexivity.
  - apply (proj2 (handleDecompression_falls_back same same gunzip
                    (encoded "gzip") (magic ++ "0hel") eq_refl)
             (io.mkReader "hel" (Some io.ErrUnexpectedEOF))).
    + reflexivity.
    + reflexivity.
Defined.

End decompress_samples.

(** ** rawHasBody *)
Section probe_claims.
Import Probe.

Variable ReadRequest : string → http.RequestBody * option io.error.

Local Abbreviation rawHasBody := (Probe.rawHasBody ReadRequest).

Lemma length_take (n : nat) (s : string) :
  (String.length (io.take n s) ≤ n)%nat.
Proof.
  revert s. induction n as [|n IH]; intros [|c s]; simpl; try lia.
  apply le_n_S, IH.
Qed.

Lemma len_take (n : Z) (s : string) : 0 ≤ n → len (io.take (Z.to_nat n) s) ≤ n.
Proof.
  intros Hn. unfold len. pose proof (length_take (Z.to_nat n) s) as Hle.
  apply Nat2Z.inj_le in Hle. by rewrite Z2Nat.id in Hle.
Qed.

Lemma ReadAll_LimitReader (b : io.Reader) (n : Z) :
  io.ReadAll (io.LimitReader b n)
  = (io.take (Z.to_nat n) (io.pending b),
     if len (io.pending b) <? n then io.failure b else None).
Proof. done. Qed.

Lemma take_nonempty (n : nat) (s : string) :
  (0 < n)%nat → io.take n s = "" ↔ s = "".
Proof. destruct n as [|n]; [lia |]. by destruct s. Qed.

(** The answer in terms of the stream: a byte is pending, and the stream
    does not fail before 512 bytes were read. *)
Lemma rawHasBody_stream (data : string) (b : io.Reader) :
  ReadRequest data = (http.BodyStream b, None) →
  rawHasBody data = true
  ↔ io.pending b ≠ "" ∧ (len (io.pending b) < 512 → io.failure b = None).
Proof.
  intros Hparse. unfold Probe.rawHasBody. rewrite Hparse, ReadAll_LimitReader.
  destruct (len (io.pending b) <? 512) eqn:Hshort.
  - apply Z.ltb_lt in Hshort. destruct (io.failure b) as [e|].
    + split; [done | intros [_ He]; by specialize (He Hshort)].
    + rewrite len_pos_nonempty, take_nonempty by lia.
      split; [by intros Hne | by intros [Hne _]].
  - apply Z.ltb_ge in Hshort.
    rewrite len_pos_nonempty, take_nonempty by lia. split.
    + intros Hne. split; [done | lia].
    + by intros [Hne _].
Qed.


End probe_claims.

Section probe_samples.
Import Probe Sample.


End probe_samples.

(** ** dump *)
Section dump_claims.
Import Dump.

Variable BodyBytes : retryable_Request → bytes * option io.error.
Variable wire_out : http.Request → bool → option bytes → bytes * option io.error.
Variable ExpandMapValues : gmap string string → gmap string (list string).
Variable DumpRequestRaw :
  string → string → string → gmap string (list string) → io.Reader → bytes →
  bytes * option io.error.

Local Abbreviation dump :=
  (Dump.dump BodyBytes wire_out ExpandMapValues DumpRequestRaw).

Lemma set_Body_twice (req : http.Request) (b1 b2 : option io.Reader) :
  http.set_Body (http.set_Body req b1) b2 = http.set_Body req b2.
Proof. done. Qed.

(** A structured dump: what it returns and the state it leaves. *)
Lemma dump_structured (req : generatedRequest) (reqURL : string) (rr : retryable_Request) :
  request req = Some rr →
  dump req reqURL
  = Returned
      (wire_out (http.set_Body (Request rr) None) true (Some (BodyBytes rr).1),
       mkGenerated
         (Some (set_Request_Body rr (Some (io.NewReader (BodyBytes rr).1))))
         (rawRequest req)).
Proof.
  intros Hrr. unfold Dump.dump. rewrite Hrr.
  destruct (BodyBytes rr) as [bodyBytes err]. cbn [fst].
  unfold DumpRequestOut, set_Request_Body. cbn [Request body].
  change (http.req_Body (http.set_Body (Request rr) (Some (io.NewReader bodyBytes))))
    with (Some (io.NewReader bodyBytes)).
  change (io.ReadAll (io.NewReader bodyBytes)) with (bodyBytes, @None io.error).
  cbv iota. by rewrite !set_Body_twice.
Qed.

(** C10: for a structured request, with a [BodyBytes] that gives the
    bytes of the body again once the body was replaced by a reader over
    them, a dump leaves the request with a body that is a new reader
    over the bytes that were dumped, and a second dump returns what the
    first returned, byte for byte, and leaves that state as it is. *)
Theorem dump_twice (req : generatedRequest) (reqURL : string) (rr : retryable_Request) :
  replays BodyBytes →
  request req = Some rr →
  ∃ out req1,
    dump req reqURL = Returned (out, req1)
    ∧ dump req1 reqURL = Returned (out, req1)
    ∧ (http.req_Body ∘ Request <$> request req1)
      = Some (Some (io.NewReader (BodyBytes rr).1)).
Proof.
  intros Hreplays Hrr.
  set (rr1 := set_Request_Body rr (Some (io.NewReader (BodyBytes rr).1))).
  exists (wire_out (http.set_Body (Request rr) None) true (Some (BodyBytes rr).1)),
         (mkGenerated (Some rr1) (rawRequest req)).
  split; [by apply dump_structured |]. split; [| done].
  rewrite (dump_structured (mkGenerated (Some rr1) (rawRequest req)) reqURL rr1 eq_refl).
  cbn [rawRequest]. subst rr1. rewrite (Hreplays rr).
  unfold set_Request_Body. cbn [Request body]. by rewrite !set_Body_twice.
Qed.

End dump_claims.

Section dump_samples.
Import Dump Sample.

(** Both implementations of [BodyBytes] keep the promise. *)
Lemma BodyBytes_retained_replays : replays BodyBytes_retained.
Proof. by intros rr. Qed.

Lemma BodyBytes_current_replays : replays BodyBytes_current.
Proof. by intros rr. Qed.

Lemma dump_twice_witness :
  ∃ out req1,
    Dump.dump BodyBytes_retained wire expand wire_raw posted "http://example.com/"
    = Returned (out, req1)
    ∧ Dump.dump BodyBytes_retained wire expand wire_raw req1 "http://example.com/"
      = Returned (out, req1)
    ∧ (http.req_Body ∘ Request <$> request req1)
      = Some (Some (io.NewReader "abc")).
Proof.
  apply (dump_twice BodyBytes_retained wire expand wire_raw posted
           "http://example.com/" _ BodyBytes_retained_replays eq_refl).
Defined.

End dump_samples.

(** * Further properties *)

(** ** dumpResponseWithRedirectChain *)
Section chain_more.
Import RedirectChain Further.

Variable DumpResponse : http.Response → bool → bytes * option io.error.

Local Abbreviation walk := (RedirectChain.walk DumpResponse).
Local Abbreviation dumpResponseWithRedirectChain :=
  (RedirectChain.dumpResponseWithRedirectChain DumpResponse).
Local Abbreviation renders := (RedirectChain.renders DumpResponse).
Local Abbreviation head_of := (RedirectChain.head_of DumpResponse).
Local Abbreviation endless := (Further.endless DumpResponse).

(** What the loop adds to [redirects] does not depend on what
    [redirects] holds. *)
Lemma walk_shift (fuel : nat) :
  ∀ (h : http.heap) (p : option http.addr) (redirects : list string)
    (redirectChain : Buffer.t),
    walk fuel h p redirects redirectChain
    = '(more, buffer) ← walk fuel h p [] redirectChain;
      Returned ((redirects ++ more)%list, buffer).
Proof.
  induction fuel as [|fuel IH]; intros h p redirects redirectChain.
  - destruct p as [a|]; [done |]. cbn. by rewrite app_nil_r.
  - destruct p as [a|]; [| cbn; by rewrite app_nil_r].
    cbn [RedirectChain.walk].
    destruct (h !! a) as [r|]; [| done]. cbn [deref mbind exec_bind].
    destruct (DumpResponse r false) as [respData [e|]];
      [cbn; by rewrite app_nil_r |].
    destruct (http.resp_Request r) as [rq|]; [| done].
    cbn [deref mbind exec_bind].
    rewrite (IH h _ (redirects ++ _)%list), (IH h _ ([] ++ _)%list).
    destruct (RedirectChain.walk _ _ _ _ _ _) as [[more buffer]| |]; [| done..].
    cbn. by rewrite <- app_assoc.
Qed.

(** Entered with an empty buffer, the loop leaves an empty buffer. *)
Lemma walk_buffer (fuel : nat) :
  ∀ (h : http.heap) (p : option http.addr) (redirects out : list string)
    (buffer : Buffer.t),
    walk fuel h p redirects Buffer.empty = Returned (out, buffer) →
    buffer = Buffer.empty.
Proof.
  induction fuel as [|fuel IH]; intros h p redirects out buffer.
  - destruct p as [a|]; [done | by intros [= _ <-]].
  - destruct p as [a|]; [| by intros [= _ <-]].
    cbn [RedirectChain.walk].
    destruct (h !! a) as [r|]; [| done]. cbn [deref mbind exec_bind].
    destruct (DumpResponse r false) as [respData [e|]]; [by intros [= _ <-] |].
    destruct (http.resp_Request r) as [rq|]; [| done].
    cbn [deref mbind exec_bind]. apply IH.
Qed.

(** X1: a final response that renders and has no response behind it
    (it holds no request, or its request has no [Response]) is dumped as
    its status line and headers followed by the body, without a turn of
    the loop. *)
Theorem dump_single_hop (h : http.heap) (a : http.addr) (r : http.Response)
        (body : bytes) (fuel : nat) :
  h !! a = Some r →
  renders r →
  previous r = None →
  dumpResponseWithRedirectChain fuel h (Some a) body
  = Returned ((head_of r ++ body)%string, None).
Proof.
  intros Ha Hr Hprev. unfold RedirectChain.dumpResponseWithRedirectChain.
  cbn [deref mbind exec_bind]. rewrite Ha. cbn [deref mbind exec_bind].
  unfold RedirectChain.renders in Hr. unfold RedirectChain.head_of.
  destruct (DumpResponse r false) as [respData err]. cbn [fst snd] in *. subst err.
  change (match http.resp_Request r with
          | Some rq => http.req_Response rq
          | None => None
          end) with (previous r).
  rewrite Hprev. by destruct fuel.
Qed.

(** X2: whenever the dump is returned without an error, it ends with the
    status line and headers of the final response followed by the body
    that was passed in; what stands before them does not depend on that
    body. *)
Theorem dump_ends_with_final (h : http.heap) (a : http.addr) (r : http.Response)
        (body out : bytes) (fuel : nat) :
  h !! a = Some r →
  dumpResponseWithRedirectChain fuel h (Some a) body = Returned (out, None) →
  ∃ before,
    out = (before ++ head_of r ++ body)%string
    ∧ ∀ body',
        dumpResponseWithRedirectChain fuel h (Some a) body'
        = Returned ((before ++ head_of r ++ body')%string, None).
Proof.
  intros Ha. unfold RedirectChain.dumpResponseWithRedirectChain.
  cbn [deref mbind exec_bind]. rewrite Ha. cbn [deref mbind exec_bind].
  unfold RedirectChain.head_of.
  destruct (DumpResponse r false) as [respData [e|]]; [done |]. cbn [fst].
  set (first := match http.resp_Request r with
                | Some rq => http.req_Response rq
                | None => None
                end).
  unfold Buffer.Reset. cbn [app].
  rewrite walk_shift.
  destruct (RedirectChain.walk DumpResponse fuel h first [] Buffer.empty)
    as [[more buffer]| |] eqn:Hwalk; [| done..].
  apply walk_buffer in Hwalk as Hbuffer. subst buffer.
  cbn [mbind exec_bind]. rewrite emit_all. unfold Buffer.Bytes. intros Hout.
  assert (Hout' := f_equal (λ x, match x with
                                 | Returned (o, _) => o
                                 | _ => out
                                 end) Hout).
  cbv beta iota in Hout'. subst out. clear Hout.
  exists (glue (reverse more)). split.
  - cbn [app]. by rewrite reverse_cons, glue_app, glue_singleton.
  - intros body'. rewrite walk_shift, Hwalk. cbn [mbind exec_bind].
    rewrite emit_all. cbn [app]. by rewrite reverse_cons, glue_app, glue_singleton.
Qed.

Lemma walk_endless (fuel : nat) :
  ∀ (h : http.heap) (a : http.addr) (redirects : list string)
    (redirectChain : Buffer.t),
    endless h a →
    walk fuel h (Some a) redirects redirectChain = OutOfFuel.
Proof.
  induction fuel as [|fuel IH]; intros h a redirects redirectChain Hendless; [done |].
  destruct (Hendless a) as (r & rq & c & Ha & Hr & Hrq & Hc); [done |].
  cbn [RedirectChain.walk]. rewrite Ha. cbn [deref mbind exec_bind].
  unfold RedirectChain.renders in Hr.
  destruct (DumpResponse r false) as [respData err]. cbn [snd] in Hr. subst err.
  rewrite Hrq. cbn [deref mbind exec_bind]. rewrite Hc. apply IH.
  intros b Hb. apply Hendless. eapply rtc_l; [| done].
  exists r. split; [done |]. unfold previous. rewrite Hrq. exact Hc.
Qed.

(** X3: the loop has no bound of its own.  When going back from the
    final response never ends (every response met renders, holds its
    request, and the request has a [Response], as on a cycle), the
    function does not return, however many turns it is given. *)
Theorem dump_endless_runs_on (h : http.heap) (a : http.addr) (body : bytes)
        (fuel : nat) :
  endless h a →
  dumpResponseWithRedirectChain fuel h (Some a) body = OutOfFuel.
Proof.
  intros Hendless.
  destruct (Hendless a) as (r & rq & c & Ha & Hr & Hrq & Hc); [done |].
  unfold RedirectChain.dumpResponseWithRedirectChain.
  cbn [deref mbind exec_bind]. rewrite Ha. cbn [deref mbind exec_bind].
  unfold RedirectChain.renders in Hr.
  destruct (DumpResponse r false) as [respData err]. cbn [snd] in Hr. subst err.
  rewrite Hrq, Hc, walk_endless; [done |].
  intros b Hb. apply Hendless. eapply rtc_l; [| done].
  exists r. split; [done |]. unfold previous. rewrite Hrq. exact Hc.
Qed.

Lemma walk_agree (fuel : nat) :
  ∀ (h1 h2 : http.heap) (p : option http.addr) (redirects : list string)
    (redirectChain : Buffer.t),
    (∀ a, p = Some a → agree_behind h1 h2 a) →
    walk fuel h1 p redirects redirectChain = walk fuel h2 p redirects redirectChain.
Proof.
  induction fuel as [|fuel IH]; intros h1 h2 p redirects redirectChain Hp.
  - by destruct p.
  - destruct p as [a|]; [| done].
    cbn [RedirectChain.walk]. rewrite <- (Hp a eq_refl a) by done.
    destruct (h1 !! a) as [r|] eqn:Ha; [| done]. cbn [deref mbind exec_bind].
    destruct (DumpResponse r false) as [respData [e|]]; [done |].
    destruct (http.resp_Request r) as [rq|] eqn:Hrq; [| done].
    cbn [deref mbind exec_bind]. apply IH.
    intros b Hb c Hbc. apply (Hp a eq_refl). eapply rtc_l; [| done].
    exists r. split; [done |]. unfold previous. rewrite Hrq. exact Hb.
Qed.

(** X4: the dump reads only the final response and the responses
    behind it: on two heaps that hold the same responses at the
    addresses met going back from the final one, the function does the
    same. *)
Theorem dump_reads_chain_only (h1 h2 : http.heap) (a : http.addr) (body : bytes)
        (fuel : nat) :
  agree_behind h1 h2 a →
  dumpResponseWithRedirectChain fuel h1 (Some a) body
  = dumpResponseWithRedirectChain fuel h2 (Some a) body.
Proof.
  intros Hagree. unfold RedirectChain.dumpResponseWithRedirectChain.
  cbn [deref mbind exec_bind]. rewrite <- (Hagree a) by done.
  destruct (h1 !! a) as [r|] eqn:Ha; [| done]. cbn [deref mbind exec_bind].
  destruct (DumpResponse r false) as [respData [e|]]; [done |].
  rewrite (walk_agree fuel h1 h2); [done |].
  intros b Hb c Hbc. apply Hagree. eapply rtc_l; [| done].
  exists r. split; [done |]. exact Hb.
Qed.

End chain_more.

Section chain_more_samples.
Import RedirectChain Further Sample.

Lemma dump_single_hop_witness :
  dumpResponseWithRedirectChain render 0%nat orphan_hop (Some 1%positive) "BODY"
  = Returned (("HTTP/1.1 302 Found" ++ CRLF ++ CRLF ++ "BODY")%string, None).
Proof.
  apply (dump_single_hop render orphan_hop 1%positive orphan "BODY" 0%nat);
    reflexivity.
Defined.

Lemma dump_ends_with_final_witness :
  ∃ before,
    ("HTTP/1.1 301 Moved Permanently" ++ CRLF ++ CRLF ++ "one"
     ++ "HTTP/1.1 302 Found" ++ CRLF ++ CRLF ++ "tw"
     ++ "HTTP/1.1 200 OK" ++ CRLF ++ CRLF ++ "BODY")%string
    = (before ++ head_of render ok ++ "BODY")%string
    ∧ ∀ body',
        dumpResponseWithRedirectChain render 3%nat three_hops (Some 3%positive) body'
        = Returned ((before ++ head_of render ok ++ body')%string, None).
Proof.
  apply (dump_ends_with_final render three_hops 3%positive ok "BODY" _ 3%nat);
    reflexivity.
Defined.

Lemma looped_reach (x b : http.addr) :
  rtc (link looped) x b →
  x = 1%positive ∨ x = 2%positive → b = 1%positive ∨ b = 2%positive.
Proof.
  induction 1 as [x | x y b (r & Hr & Hy) _ IH]; [done |].
  intros Hx. apply IH. left.
  destruct Hx as [-> | ->].
  - change (looped !! 1%positive) with (Some again) in Hr.
    injection Hr as <-. by injection Hy as <-.
  - change (looped !! 2%positive) with (Some landed) in Hr.
    injection Hr as <-. by injection Hy as <-.
Qed.

Lemma looped_endless : endless render looped 2%positive.
Proof.
  intros b Hb. destruct (looped_reach _ _ Hb) as [-> | ->]; [by right | |].
  - by exists again, (get (Some 1%positive)), 1%positive.
  - by exists landed, (get (Some 1%positive)), 1%positive.
Qed.

Lemma dump_endless_runs_on_witness :
  dumpResponseWithRedirectChain render 1000%nat looped (Some 2%positive) "BODY"
  = OutOfFuel.
Proof.
  apply (dump_endless_runs_on render looped 2%positive "BODY" 1000%nat).
  apply looped_endless.
Defined.

Lemma crowded_agrees : agree_behind three_hops crowded 3%positive.
Proof.
  intros b Hb. unfold crowded. rewrite lookup_insert_ne; [done |].
  intros <-. apply rtc_tc in Hb as [Hb | Hb]; [done |].
  destruct (chain_well_linked three_hops 3%positive ok [moved; found] eq_refl
              three_hops_chain) as [_ Hlinked].
  by destruct (Hlinked _ Hb) as (r & rq & Hr & _).
Qed.

Lemma dump_reads_chain_only_witness :
  dumpResponseWithRedirectChain render 3%nat three_hops (Some 3%positive) "BODY"
  = dumpResponseWithRedirectChain render 3%nat crowded (Some 3%positive) "BODY".
Proof.
  apply (dump_reads_chain_only render three_hops crowded 3%positive "BODY" 3%nat).
  apply crowded_agrees.
Defined.

End chain_more_samples.

(** ** headersToString *)
Section headers_more.
Import Headers Further.

Lemma length_glue_map {A : Type} (f : A → string) (l : list A) :
  String.length (glue (map f l)) = sum_list_with (λ x, String.length (f x)) l.
Proof.
  induction l as [|x l IH]; [done |].
  cbn [map sum_list_with]. by rewrite glue_cons, length_append, IH.
Qed.

Lemma sum_list_with_eq {A : Type} (f g : A → nat) (l : list A) :
  (∀ x, f x = g x) → sum_list_with f l = sum_list_with g l.
Proof.
  intros Hfg. induction l as [|x l IH]; [done |].
  cbn [sum_list_with]. by rewrite Hfg, IH.
Qed.

Lemma length_header_block (entry : string * list string) :
  String.length (header_block entry) = block_size entry.
Proof.
  destruct entry as [name values]. unfold header_block, block_size. cbn [fst snd].
  destruct values as [|v values].
  - rewrite !length_append. simpl. lia.
  - unfold header_lines. rewrite length_glue_map.
    apply sum_list_with_eq. intros value. unfold header_line.
    rewrite !length_append. simpl. lia.
Qed.

(** The block of every entry of the multimap stands in the output. *)
Lemma headersToString_entry (headers : http.Header) (out name : string)
      (values : list string) :
  headersToString headers out →
  headers !! name = Some values →
  ∃ l1 l2,
    (l1 ++ (name, values) :: l2)%list ≡ₚ map_to_list headers ∧
    out = (headersToString_in l1 ++ header_block (name, values)
           ++ headersToString_in l2)%string.
Proof.
  intros (order & Hperm & ->) Hlook.
  assert (Hin : (name, values) ∈ order).
  { rewrite Hperm. by apply elem_of_map_to_list. }
  apply list_elem_of_split in Hin as (l1 & l2 & ->).
  exists l1, l2. split; [done |].
  rewrite headersToString_in_app.
  change ((name, values) :: l2) with ([(name, values)] ++ l2)%list.
  rewrite headersToString_in_app. do 2 f_equal.
  rewrite headersToString_in_blocks. cbn [map]. by rewrite glue_singleton.
Qed.

(** X5: a multimap without names is serialized to the empty string, and
    a name that is present without any value is not skipped: the output
    holds for it the line [Name: ] with nothing after the space. *)
Theorem headersToString_nothing_to_write :
  (∀ out, headersToString ∅ out ↔ out = "")
  ∧ (∀ (headers : http.Header) (out name : string),
        headersToString headers out →
        headers !! name = Some [] →
        ∃ l1 l2,
          (l1 ++ (name, []) :: l2)%list ≡ₚ map_to_list headers ∧
          out = (headersToString_in l1 ++ (name ++ ": " ++ LF)
                 ++ headersToString_in l2)%string).
Proof.
  split.
  - intros out. unfold headersToString, range_order.
    rewrite map_to_list_empty. split.
    + by intros (order & ->%Permutation_nil_r & ->).
    + intros ->. by exists [].
  - intros headers out name Hout Hlook.
    by apply (headersToString_entry headers out name []).
Qed.

(** X6: in whatever order the names come out, the output has one length:
    the sum over the names of the sizes of their blocks (per value the
    lengths of name and value and three bytes for ": " and the newline;
    for a name without values the length of the name and three bytes). *)
Theorem headersToString_size (headers : http.Header) (out : string) :
  headersToString headers out →
  String.length out = sum_list_with block_size (map_to_list headers).
Proof.
  intros (order & Hperm & ->). unfold range_order in Hperm.
  rewrite headersToString_in_blocks, length_glue_map, <- Hperm.
  apply sum_list_with_eq. intros entry. apply length_header_block.
Qed.

End headers_more.

Section headers_more_samples.
Import Headers Further.

Lemma headersToString_nothing_to_write_witness :
  ∃ l1 l2,
    (l1 ++ ("X-Empty", []) :: l2)%list
      ≡ₚ map_to_list ({["X-Empty" := []]} : http.Header) ∧
    ("X-Empty: " ++ LF)%string
    = (headersToString_in l1 ++ ("X-Empty" ++ ": " ++ LF) ++ headersToString_in l2)%string.
Proof.
  apply (proj2 headersToString_nothing_to_write {["X-Empty" := []]}).
  - apply headersToString_singleton. reflexivity.
  - apply lookup_singleton_eq.
Defined.

Lemma headersToString_size_witness :
  String.length ("B: 2" ++ LF ++ "A: 1" ++ LF)
  = sum_list_with block_size (map_to_list (inserted [("A", ["1"]); ("B", ["2"])])).
Proof.
  apply (headersToString_size (inserted [("A", ["1"]); ("B", ["2"])])).
  exists [("B", ["2"]); ("A", ["1"])]. split; [| reflexivity].
  unfold range_order. by rewrite inserted_A_B.
Defined.

End headers_more_samples.

(** ** handleDecompression *)
Section decompress_more.
Import Decompress.

Variable unicode_ToLower unicode_TrimSpace : string → string.
Variable gzip_NewReader : bytes → io.Reader * option io.error.

Local Abbreviation handleDecompression :=
  (Decompress.handleDecompression unicode_ToLower unicode_TrimSpace gzip_NewReader).
Local Abbreviation encoding_of :=
  (Decompress.encoding_of unicode_ToLower unicode_TrimSpace).

(** X7: [handleDecompression] returns an error only for a response whose
    Content-Encoding holds "gzip", when the gzip reader cannot be made or
    cannot be read to its end, and then with the body it was given; and
    it returns, without an error, other bytes than it was given only when
    they are all that the gzip reader delivered up to its end. *)
Theorem handleDecompression_outcomes (resp : option http.Response)
        (bodyOrig out : bytes) :
  (∀ e, handleDecompression resp bodyOrig = (out, Some e) →
        out = bodyOrig
        ∧ ∃ r, resp = Some r
               ∧ strings.Contains (encoding_of r) "gzip" = true
               ∧ ((gzip_NewReader bodyOrig).2 = Some e
                  ∨ ∃ gzipreader,
                      gzip_NewReader bodyOrig = (gzipreader, None)
                      ∧ (io.ReadAll gzipreader).2 = Some e))
  ∧ (handleDecompression resp bodyOrig = (out, None) →
     out = bodyOrig
     ∨ ∃ r gzipreader,
         resp = Some r
         ∧ strings.Contains (encoding_of r) "gzip" = true
         ∧ gzip_NewReader bodyOrig = (gzipreader, None)
         ∧ io.ReadAll gzipreader = (out, None)).
Proof.
  unfold Decompress.handleDecompression.
  destruct resp as [r|]; [| split; [done | intros [= <-]; by left]].
  fold (encoding_of r).
  destruct (strings.Contains (encoding_of r) "gzip") eqn:Hgzip;
    [| split; [done | intros [= <-]; by left]].
  destruct (gzip_NewReader bodyOrig) as [gzipreader [e'|]] eqn:Hnew.
  - split; [| done]. intros e [= <- <-]. split; [done |].
    exists r. split_and!; [done.. |]. by left.
  - destruct (io.ReadAll gzipreader) as [bodyDec [e'|]] eqn:Hread.
    + split; [| done]. intros e [= <- <-]. split; [done |].
      exists r. split_and!; [done.. |]. right. exists gzipreader.
      by rewrite Hread.
    + split; [done |]. intros [= <-]. right. by exists r, gzipreader.
Qed.

Lemma is_ascii_lower_byte (c : ascii) :
  strings.is_ascii (strings.lower_byte c) = strings.is_ascii c.
Proof. by destruct c as [[] [] [] [] [] [] [] []]. Qed.

Lemma all_ascii_lower (s : string) :
  strings.all_ascii (strings.map_bytes strings.lower_byte s) = strings.all_ascii s.
Proof.
  induction s as [|c s IH]; [done |].
  cbn [strings.map_bytes strings.all_ascii]. by rewrite is_ascii_lower_byte, IH.
Qed.

(** X8: the Content-Encoding is matched without regard to the case of
    its letters: two responses whose header values are ASCII and equal
    once their capital letters are put in lower case are treated
    alike. *)
Theorem handleDecompression_ignores_case (resp1 resp2 : http.Response)
        (bodyOrig : bytes) :
  strings.all_ascii (http.Get (http.resp_Header resp1) "Content-Encoding") = true →
  strings.map_bytes strings.lower_byte
    (http.Get (http.resp_Header resp1) "Content-Encoding")
  = strings.map_bytes strings.lower_byte
      (http.Get (http.resp_Header resp2) "Content-Encoding") →
  handleDecompression (Some resp1) bodyOrig
  = handleDecompression (Some resp2) bodyOrig.
Proof.
  intros Hascii Hlower.
  assert (Hascii2 :
    strings.all_ascii (http.Get (http.resp_Header resp2) "Content-Encoding") = true).
  { by rewrite <- all_ascii_lower, <- Hlower, all_ascii_lower. }
  unfold Decompress.handleDecompression, strings.ToLower.
  by rewrite Hascii, Hascii2, Hlower.
Qed.

End decompress_more.

Section decompress_more_samples.
Import Decompress Sample.

Lemma handleDecompression_outcomes_witness :
  ("hello" : bytes) = "hello"
  ∧ ∃ r, Some (encoded "gzip") = Some r
         ∧ strings.Contains (encoding_of same same r) "gzip" = true
         ∧ ((gunzip "hello").2 = Some (io.errorString "gzip: invalid header")
            ∨ ∃ gzipreader,
                gunzip "hello" = (gzipreader, None)
                ∧ (io.ReadAll gzipreader).2
                  = Some (io.errorString "gzip: invalid header")).
Proof.
  apply (proj1 (handleDecompression_outcomes same same gunzip
                  (Some (encoded "gzip")) "hello" "hello")).
  reflexivity.
Defined.

Lemma handleDecompression_ignores_case_witness :
  handleDecompression same same gunzip (Some (encoded "GZip")) (gz "hello")
  = handleDecompression same same gunzip (Some (encoded "gzip")) (gz "hello").
Proof.
  apply (handleDecompression_ignores_case same same gunzip
           (encoded "GZip") (encoded "gzip")); reflexivity.
Defined.

End decompress_more_samples.

(** ** rawHasBody *)
Section probe_more.
Import Probe.

Variable ReadRequest : string → http.RequestBody * option io.error.

Local Abbreviation rawHasBody := (Probe.rawHasBody ReadRequest).


End probe_more.

Section probe_more_samples.
Import Probe Further.


End probe_more_samples.

(** ** dump *)
Section dump_more.
Import Dump.

Variable BodyBytes : retryable_Request → bytes * option io.error.
Variable wire_out : http.Request → bool → option bytes → bytes * option io.error.
Variable ExpandMapValues : gmap string string → gmap string (list string).
Variable DumpRequestRaw :
  string → string → string → gmap string (list string) → io.Reader → bytes →
  bytes * option io.error.

Local Abbreviation dump :=
  (Dump.dump BodyBytes wire_out ExpandMapValues DumpRequestRaw).

(** X10: an error of [BodyBytes] is dropped.  The dump of a structured
    request is what the transport writes for the request with the bytes
    that [BodyBytes] returned, with or without an error, as its body, and
    the only error that [dump] returns is that of the transport; the
    body that the request had before the call plays no part beyond what
    [BodyBytes] makes of it, and the request is left with a new reader
    over the dumped bytes. *)
Theorem dump_drops_body_error (req : generatedRequest) (reqURL : string)
        (rr : retryable_Request) (bodyBytes : bytes) (err : option io.error) :
  request req = Some rr →
  BodyBytes rr = (bodyBytes, err) →
  dump req reqURL
  = Returned
      (wire_out (http.set_Body (Request rr) None) true (Some bodyBytes),
       mkGenerated
         (Some (set_Request_Body rr (Some (io.NewReader bodyBytes))))
         (rawRequest req)).
Proof.
  intros Hrr Hbytes.
  rewrite (dump_structured BodyBytes wire_out ExpandMapValues DumpRequestRaw
             req reqURL rr Hrr).
  by rewrite Hbytes.
Qed.

End dump_more.

Section dump_more_samples.
Import Dump Sample Further.

Lemma dump_drops_body_error_witness :
  Dump.dump BodyBytes_failing wire expand wire_raw posted "http://example.com/"
  = Returned
      (wire (http.set_Body (http.mkRequest "POST" "http://example.com/" ∅ 3
                                           (Some (io.NewReader "")) None) None)
            true (Some ""),
       mkGenerated
         (Some (set_Request_Body
                  (mkRetryable
                     (http.mkRequest "POST" "http://example.com/" ∅ 3
                                     (Some (io.NewReader "")) None)
                     (Some (io.NewReader "abc", None)))
                  (Some (io.NewReader ""))))
         None).
Proof.
  apply (dump_drops_body_error BodyBytes_failing wire expand wire_raw posted
           "http://example.com/" _ "" (Some (io.errorString "body unavailable"))
           eq_refl eq_refl).
Defined.

End dump_more_samples.

(** ** dumpResponseWithRedirectChain: where it can fault *)
Section chain_faults.
Import RedirectChain.

Variable DumpResponse : http.Response → bool → bytes * option io.error.

Local Abbreviation walk := (RedirectChain.walk DumpResponse).
Local Abbreviation dumpResponseWithRedirectChain :=
  (RedirectChain.dumpResponseWithRedirectChain DumpResponse).
Local Abbreviation renders := (RedirectChain.renders DumpResponse).

Lemma walk_fault (fuel : nat) :
  ∀ (h : http.heap) (p : option http.addr) (redirects : list string)
    (redirectChain : Buffer.t),
    walk fuel h p redirects redirectChain = Panicked →
    (∀ a, p = Some a → ∀ b, rtc (link h) a b → is_Some (h !! b)) →
    ∃ a b r,
      p = Some a ∧ rtc (link h) a b ∧ h !! b = Some r
      ∧ renders r ∧ http.resp_Request r = None.
Proof.
  induction fuel as [|fuel IH]; intros h p redirects redirectChain Hfault Hheap.
  - by destruct p.
  - destruct p as [a|]; [| done].
    destruct (Hheap a eq_refl a) as [r Ha]; [done |].
    cbn [RedirectChain.walk] in Hfault. rewrite Ha in Hfault.
    cbn [deref mbind exec_bind] in Hfault.
    destruct (DumpResponse r false) as [respData [e|]] eqn:Hdump; [done |].
    destruct (http.resp_Request r) as [rq|] eqn:Hrq.
    + cbn [deref mbind exec_bind] in Hfault.
      apply IH in Hfault as (a' & b & rb & Ha' & Hreach & Hb & Hrb & Hnil).
      * exists a, b, rb. split_and!; [done | | done..].
        eapply rtc_l; [| done]. exists r. split; [done |].
        unfold previous. rewrite Hrq. exact Ha'.
      * intros a' Ha' b Hb. apply (Hheap a eq_refl). eapply rtc_l; [| done].
        exists r. split; [done |]. unfold previous. rewrite Hrq. exact Ha'.
    + exists a, a, r. split_and!; [done.. | | done].
      unfold RedirectChain.renders. by rewrite Hdump.
Qed.

(** X11: with a final response that is not nil, the only fault is the
    one at the end of a turn of the loop: the function faults only if
    some response behind the final one renders and holds no request.  A
    final response without a request does not make it fault. *)
Theorem dump_fault_only_behind (h : http.heap) (a : http.addr) (body : bytes)
        (fuel : nat) :
  (∀ b, rtc (link h) a b → is_Some (h !! b)) →
  dumpResponseWithRedirectChain fuel h (Some a) body = Panicked →
  ∃ b r,
    tc (link h) a b ∧ h !! b = Some r
    ∧ renders r ∧ http.resp_Request r = None.
Proof.
  intros Hheap. destruct (Hheap a) as [r Ha]; [done |].
  unfold RedirectChain.dumpResponseWithRedirectChain.
  cbn [deref mbind exec_bind]. rewrite Ha. cbn [deref mbind exec_bind].
  destruct (DumpResponse r false) as [respData [e|]]; [done |].
  set (first := match http.resp_Request r with
                | Some rq => http.req_Response rq
                | None => None
                end).
  destruct (RedirectChain.walk _ _ _ _ _ _) as [[redirects chain]| |] eqn:Hwalk;
    [done | | done].
  intros _. apply walk_fault in Hwalk as (a' & b & rb & Ha' & Hreach & Hb & Hrb & Hnil).
  - exists b, rb. split_and!; [| done..].
    eapply tc_rtc_r; [| done]. apply tc_once. exists r. split; [done |]. exact Ha'.
  - intros a' Ha' b Hb. apply Hheap. eapply rtc_l; [| done].
    exists r. split; [done |]. exact Ha'.
Qed.

End chain_faults.

Section chain_faults_samples.
Import RedirectChain Sample.

Lemma orphan_hop_reach (b : http.addr) :
  rtc (link orphan_hop) 2%positive b → b = 2%positive ∨ b = 1%positive.
Proof.
  intros [-> | Hb]%rtc_tc; [by left |]. right.
  inversion Hb as [? ? (r & Hr & Hy) | ? y ? (r & Hr & Hy) Hrest]; subst;
    change (orphan_hop !! 2%positive) with (Some landed) in Hr;
    injection Hr as <-; injection Hy as <-; [done |].
  inversion Hrest as [? ? (r & Hr & Hy) | ? y ? (r & Hr & Hy) _]; subst;
    change (orphan_hop !! 1%positive) with (Some orphan) in Hr;
    injection Hr as <-; discriminate Hy.
Qed.

Lemma dump_fault_only_behind_witness :
  ∃ b r,
    tc (link orphan_hop) 2%positive b ∧ orphan_hop !! b = Some r
    ∧ renders render r ∧ http.resp_Request r = None.
Proof.
  apply (dump_fault_only_behind render orphan_hop 2%positive "BODY" 1%nat).
  - intros b [-> | ->]%orphan_hop_reach; by eexists.
  - reflexivity.
Defined.

End chain_faults_samples.
